(** * The re-run dialog of the check-run list

    A shallow embedding of [CICheckRunRerunDialog]
    (app/src/ui/check-runs/ci-check-run-rerun-dialog.tsx): the
    classification of check runs into re-runnable and not re-runnable
    ([determineRerunnability]), the submission ([onSubmit]) and the part of
    [render] that enables the confirm button.

    Numbers are [Z]: suite ids and millisecond timestamps are integers well
    inside the exactly representable range of a JS number.  A value that may
    be [null] is an [option].  Arrays are lists; [Array.prototype.filter],
    [map] and [includes] are [filter], [map] and a boolean membership test. *)

From Stdlib Require Import ZArith List Bool String Lia Permutation Arith.
From Stdlib Require DecimalString.
Import ListNotations.
Open Scope Z_scope.

Set Implicit Arguments.

(** ** Data of lib/api and lib/ci-checks that the dialog reads *)

Module Api.

(** [APICheckStatus] *)
Inductive APICheckStatus : Type :=
| Queued
| InProgress
| Completed.

(** [APICheckConclusion] *)
Inductive APICheckConclusion : Type :=
| ActionRequired
| Canceled
| TimedOut
| Failure
| Neutral
| Success
| Skipped
| Stale.

Definition status_eqb (a b : APICheckStatus) : bool :=
  match a, b with
  | Queued, Queued | InProgress, InProgress | Completed, Completed => true
  | _, _ => false
  end.

Definition conclusion_eqb (a b : APICheckConclusion) : bool :=
  match a, b with
  | ActionRequired, ActionRequired | Canceled, Canceled
  | TimedOut, TimedOut | Failure, Failure | Neutral, Neutral
  | Success, Success | Skipped, Skipped | Stale, Stale => true
  | _, _ => false
  end.

(** [IAPICheckSuite]: [created_at] is the timestamp text the service
    sends. *)
Record IAPICheckSuite : Type := mkSuite {
  id : Z;
  rerequestable : bool;
  runs_rerequestable : bool;
  status : APICheckStatus;
  created_at : string
}.

(** [IRefCheck]: the fields of a check run the dialog looks at, and its
    identity. *)
Record IRefCheck : Type := mkCheck {
  check_id : Z;
  name : string;
  check_status : APICheckStatus;
  conclusion : option APICheckConclusion;
  checkSuiteId : option Z
}.

(** [GitHubRepository], known to the dialog only as a value it hands
    on. *)
Definition GitHubRepository : Type := string.

End Api.
Import Api.

(** ** Time *)

Inductive TimeUnit : Type := Seconds | Minutes | Hours | Days.

Definition msPerUnit (u : TimeUnit) : Z :=
  match u with
  | Seconds => 1000
  | Minutes => 60 * 1000
  | Hours => 60 * 60 * 1000
  | Days => 24 * 60 * 60 * 1000
  end.

(** Modelled from the spec: [offsetFromNow] of lib/offset-from is not part
    of the file; the spec reads [offsetFromNow(-30, 'days')] as "now minus
    30 days".  [now] is the reading of [Date.now()], in milliseconds. *)
Definition offsetFromNow (now : Z) (offset : Z) (units : TimeUnit) : Z :=
  now + offset * msPerUnit units.

(** ** Promises

    A promise settles once: it is fulfilled with a value or rejected.
    [Promise.all] over [n] promises keeps one slot per promise, in the
    order of the promises; a fulfilment fills the slot of its promise, the
    first rejection rejects the whole, and the whole is fulfilled with the
    values in slot order when every slot is filled. *)

Inductive Settlement (A : Type) : Type :=
| Fulfilled (a : A)
| Rejected.
Arguments Rejected {A}.

Fixpoint fill (A : Type) (slots : list (option A)) (i : nat) (v : A)
    : list (option A) :=
  match slots, i with
  | [], _ => []
  | None :: rest, O => Some v :: rest
  | Some u :: rest, O => Some u :: rest
  | s :: rest, S j => s :: fill rest j v
  end.

(** [None] is the rejected join.  A settlement that is not of a pending
    promise of the join (no such slot, or one already filled) cannot
    occur and changes nothing. *)
Definition settle (A : Type) (slots : list (option A)) (i : nat)
    (o : Settlement A) : option (list (option A)) :=
  match nth_error slots i with
  | Some None =>
      match o with
      | Fulfilled v => Some (fill slots i v)
      | Rejected => None
      end
  | _ => Some slots
  end.

(** The values of the join when every slot is filled. *)
Fixpoint joined (A : Type) (slots : list (option A)) : option (list A) :=
  match slots with
  | [] => Some []
  | None :: _ => None
  | Some v :: rest =>
      match joined rest with
      | Some vs => Some (v :: vs)
      | None => None
      end
  end.

Inductive JoinResult (A : Type) : Type :=
| AllFulfilled (values : list A)
| AllRejected
| AllPending.
Arguments AllRejected {A}.
Arguments AllPending {A}.

Fixpoint settleAll (A : Type) (slots : list (option A))
    (schedule : list (nat * Settlement A)) : option (list (option A)) :=
  match schedule with
  | [] => Some slots
  | (i, o) :: rest =>
      match settle slots i o with
      | Some slots' => settleAll slots' rest
      | None => None
      end
  end.

(** [Promise.all] of [n] promises that settle in the order of
    [schedule]. *)
Definition Promise_all (A : Type) (n : nat)
    (schedule : list (nat * Settlement A)) : JoinResult A :=
  match settleAll (repeat None n) schedule with
  | None => AllRejected
  | Some slots =>
      match joined slots with
      | Some values => AllFulfilled values
      | None => AllPending
      end
  end.

(** ** Classification: the body of [determineRerunnability] *)

Section Dialog.

(** [Date.parse]: the milliseconds of a timestamp text, [None] for the
    [NaN] of a text that is not a date. *)
Variable Date_parse : string -> option Z.

(** [cr.conclusion === APICheckConclusion.Failure] *)
Definition isFailure (cr : IRefCheck) : bool :=
  match conclusion cr with
  | Some c => conclusion_eqb c Failure
  | None => false
  end.

(** Lines 83-87. *)
Definition checkRunsToConsider (failedOnly : bool)
    (checkRuns : list IRefCheck) : list IRefCheck :=
  if failedOnly then filter isFailure checkRuns else checkRuns.

Definition key_eqb (a b : option Z) : bool :=
  match a, b with
  | Some x, Some y => x =? y
  | None, None => true
  | _, _ => false
  end.

Definition Set_has (s : list (option Z)) (k : option Z) : bool :=
  existsb (key_eqb k) s.

(** A JS [Set] keeps its values in insertion order; adding a value that
    is already there changes nothing. *)
Definition Set_add (s : list (option Z)) (k : option Z) : list (option Z) :=
  if Set_has s k then s else s ++ [k].

Definition new_Set (values : list (option Z)) : list (option Z) :=
  fold_left Set_add values [].

(** Lines 90-92. *)
Definition checkSuiteIds (considered : list IRefCheck) : list (option Z) :=
  new_Set (map checkSuiteId considered).

(** Lines 96-103: the suite ids a fetch is issued for, in the order of
    the promises. *)
Fixpoint fetchedIds (ids : list (option Z)) : list Z :=
  match ids with
  | [] => []
  | None :: rest => fetchedIds rest
  | Some i :: rest => i :: fetchedIds rest
  end.

(** [createdAt > offsetFromNow(-30, 'days')]; a comparison with [NaN] is
    false. *)
Definition recentEnough (now : Z) (cs : IAPICheckSuite) : bool :=
  match Date_parse (created_at cs) with
  | Some createdAt => createdAt >? offsetFromNow now (-30) Days
  | None => false
  end.

(** The condition of lines 112-116. *)
Definition isRerequestable (now : Z) (cs : IAPICheckSuite) : bool :=
  rerequestable cs && recentEnough now cs && status_eqb (status cs) Completed.

(** Lines 105-119, over the array [Promise.all] resolved to.  The loop
    runs in one turn of the event loop, and the clock it reads through
    [offsetFromNow] is taken as the one reading [now]. *)
Fixpoint rerequestableCheckSuiteIds (now : Z)
    (suites : list (option IAPICheckSuite)) : list Z :=
  match suites with
  | [] => []
  | None :: rest => rerequestableCheckSuiteIds now rest
  | Some cs :: rest =>
      if isRerequestable now cs
      then id cs :: rerequestableCheckSuiteIds now rest
      else rerequestableCheckSuiteIds now rest
  end.

Definition includes (ids : list Z) (i : Z) : bool := existsb (Z.eqb i) ids.

(** The predicate of lines 122-124. *)
Definition canRerun (ids : list Z) (cr : IRefCheck) : bool :=
  match checkSuiteId cr with
  | None => false
  | Some i => includes ids i
  end.

(** The predicate of lines 127-130. *)
Definition cannotRerun (failedOnly : bool) (ids : list Z)
    (cr : IRefCheck) : bool :=
  match checkSuiteId cr with
  | None => true
  | Some i => negb (includes ids i) || (failedOnly && isFailure cr)
  end.

Record Partition : Type := mkPartition {
  part_rerunnable : list IRefCheck;
  part_nonRerunnable : list IRefCheck
}.

(** Lines 105-131: what the function computes once the fetches have
    resolved to [suites]. *)
Definition classify (failedOnly : bool) (checkRuns : list IRefCheck)
    (now : Z) (suites : list (option IAPICheckSuite)) : Partition :=
  let ids := rerequestableCheckSuiteIds now suites in
  {| part_rerunnable :=
       filter (canRerun ids) (checkRunsToConsider failedOnly checkRuns);
     part_nonRerunnable :=
       filter (cannotRerun failedOnly ids) checkRuns |}.


(** [determineRerunnability] from its call to the state it sets, for
    fetches that settle in the order of [schedule]: [None] when the
    function does not reach [setState]. *)
Definition determineRerunnability (failedOnly : bool)
    (checkRuns : list IRefCheck) (now : Z)
    (schedule : list (nat * Settlement (option IAPICheckSuite)))
    : option Partition :=
  let considered := checkRunsToConsider failedOnly checkRuns in
  let promises := fetchedIds (checkSuiteIds considered) in
  match Promise_all (List.length promises) schedule with
  | AllFulfilled suites => Some (classify failedOnly checkRuns now suites)
  | AllRejected => None
  | AllPending => None
  end.

(** ** The component: props, state, effects *)

(** [ICICheckRunRerunDialogProps], without the two collaborators
    ([dispatcher], [onDismissed]), whose calls are recorded as events. *)
Record Props : Type := mkProps {
  repository : GitHubRepository;
  checkRuns : list IRefCheck;
  prRef : string;
  failedOnly : bool
}.

(** [ICICheckRunRerunDialogState] *)
Record State : Type := mkState {
  loadingCheckSuites : bool;
  loadingRerun : bool;
  rerunnable : list IRefCheck;
  nonRerunnable : list IRefCheck
}.

(** The argument of [setState]: the fields it names. *)
Record StatePatch : Type := mkPatch {
  set_loadingCheckSuites : option bool;
  set_loadingRerun : option bool;
  set_rerunnable : option (list IRefCheck);
  set_nonRerunnable : option (list IRefCheck)
}.

Definition orKeep (A : Type) (new : option A) (old : A) : A :=
  match new with
  | Some v => v
  | None => old
  end.

Definition setState (p : StatePatch) (s : State) : State :=
  {| loadingCheckSuites := orKeep (set_loadingCheckSuites p) (loadingCheckSuites s);
     loadingRerun := orKeep (set_loadingRerun p) (loadingRerun s);
     rerunnable := orKeep (set_rerunnable p) (rerunnable s);
     nonRerunnable := orKeep (set_nonRerunnable p) (nonRerunnable s) |}.

(** The calls the dialog makes on its collaborators. *)
Inductive Call : Type :=
| fetchCheckSuite (repo : GitHubRepository) (suiteId : Z)
| rerequestCheckSuites (repo : GitHubRepository)
    (runs : list IRefCheck) (failedOnly : bool)
| manualRefreshSubscription (repo : GitHubRepository) (ref : string)
    (runs : list IRefCheck)
| recordRerunChecks
| onDismissed.

(** What the dialog does, in the order it does it. *)
Inductive Event : Type :=
| EvCall (c : Call)
| EvResumed (c : Call)
| EvSetState (p : StatePatch).

(** Where a running [onSubmit] is suspended, with the call it awaits. *)
Inductive Stage : Type :=
| AwaitingRerequest (c : Call)
| AwaitingRefresh (c : Call).

(** An instance of the dialog between two turns of the event loop:
    [classification] holds the slots of the join [determineRerunnability]
    is suspended at ([None] once the function has returned or thrown),
    [submissions] the suspended runs of [onSubmit], [dismissed] whether
    the caller's [onDismissed] has been called (the caller then takes the
    dialog down), [log] the events so far, oldest first. *)
Record World : Type := mkWorld {
  state : State;
  dismissed : bool;
  classification : option (list (option (option IAPICheckSuite)));
  submissions : list Stage;
  log : list Event
}.

(** What the event loop delivers to the instance. *)
Inductive Input : Type :=
| UserConfirm
| UserCancel
| FetchSettled (i : nat) (o : Settlement (option IAPICheckSuite)) (now : Z)
| CallSettled (k : nat) (ok : bool).

Section Instance.

Variable P : Props.

(** Line 133, with lines 105-131 before it. *)
Definition classifiedPatch (now : Z)
    (suites : list (option IAPICheckSuite)) : StatePatch :=
  let p := classify (failedOnly P) (checkRuns P) now suites in
  {| set_loadingCheckSuites := Some false;
     set_loadingRerun := None;
     set_rerunnable := Some (part_rerunnable p);
     set_nonRerunnable := Some (part_nonRerunnable p) |}.

(** The rest of [determineRerunnability] after the join: it runs when
    every slot is filled, and there is nothing between the join and
    [setState] that looks at the instance, so the call of [setState] is
    made, and logged, in every case.  What the call does to the state is
    React's part: the update is applied to a mounted component and dropped
    on one that has been taken down, which is what a dismissed dialog
    is. *)
Definition resumeClassification (now : Z)
    (slots : list (option (option IAPICheckSuite))) (w : World) : World :=
  match joined slots with
  | Some suites =>
      let patch := classifiedPatch now suites in
      {| state := if dismissed w then state w else setState patch (state w);
         dismissed := dismissed w;
         classification := None;
         submissions := submissions w;
         log := log w ++ [EvSetState patch] |}
  | None =>
      {| state := state w;
         dismissed := dismissed w;
         classification := Some slots;
         submissions := submissions w;
         log := log w |}
  end.

(** The state the constructor sets (lines 56-61). *)
Definition initialState : State :=
  {| loadingCheckSuites := true;
     loadingRerun := false;
     rerunnable := [];
     nonRerunnable := [] |}.

(** The constructor (lines 54-63): the initial state, then
    [determineRerunnability] up to its [await]. *)
Definition construct (now : Z) : World :=
  let considered := checkRunsToConsider (failedOnly P) (checkRuns P) in
  let promises := fetchedIds (checkSuiteIds considered) in
  resumeClassification now (map (fun _ => None) promises)
    {| state := initialState;
       dismissed := false;
       classification := None;
       submissions := [];
       log := map (fun i => EvCall (fetchCheckSuite (repository P) i))
                  promises |}.

(** [okButtonDisabled] of line 215. *)
Definition okButtonDisabled (s : State) : bool :=
  (List.length (rerunnable s) =? 0)%nat.

Definition submitting : StatePatch :=
  {| set_loadingCheckSuites := None;
     set_loadingRerun := Some true;
     set_rerunnable := None;
     set_nonRerunnable := None |}.

(** [onSubmit] up to its first [await] (lines 66-72). *)
Definition onSubmit (w : World) : World :=
  let s := setState submitting (state w) in
  let c := rerequestCheckSuites (repository P) (rerunnable s) (failedOnly P) in
  {| state := s;
     dismissed := dismissed w;
     classification := classification w;
     submissions := submissions w ++ [AwaitingRerequest c];
     log := log w ++ [EvSetState submitting; EvCall c] |}.

Fixpoint dropNth (A : Type) (l : list A) (k : nat) : list A :=
  match l, k with
  | [], _ => []
  | _ :: rest, O => rest
  | x :: rest, S j => x :: dropNth rest j
  end.

Fixpoint setNth (A : Type) (l : list A) (k : nat) (v : A) : list A :=
  match l, k with
  | [], _ => []
  | _ :: rest, O => v :: rest
  | x :: rest, S j => x :: setNth rest j v
  end.

(** [onSubmit] resumed after an [await] (lines 73-79), or abandoned
    when the awaited call rejects. *)
Definition resumeSubmit (k : nat) (stage : Stage) (ok : bool)
    (w : World) : World :=
  match ok, stage with
  | false, _ =>
      {| state := state w;
         dismissed := dismissed w;
         classification := classification w;
         submissions := dropNth (submissions w) k;
         log := log w |}
  | true, AwaitingRerequest c =>
      let c' := manualRefreshSubscription (repository P) (prRef P)
                  (rerunnable (state w)) in
      {| state := state w;
         dismissed := dismissed w;
         classification := classification w;
         submissions := setNth (submissions w) k (AwaitingRefresh c');
         log := log w ++ [EvResumed c; EvCall c'] |}
  | true, AwaitingRefresh c =>
      {| state := state w;
         dismissed := true;
         classification := classification w;
         submissions := dropNth (submissions w) k;
         log := log w ++ [EvResumed c; EvCall recordRerunChecks;
                          EvCall onDismissed] |}
  end.

(** Modelled from the spec: [Dialog] and [OkCancelButtonGroup] are not
    part of the file.  The confirm action is the ok button, which does
    nothing while [okButtonDisabled] holds; the cancel action calls the
    dismissal callback at once; a dismissed dialog is gone from the
    screen and takes no more user actions. *)
Definition confirm (w : World) : World :=
  if dismissed w then w
  else if okButtonDisabled (state w) then w
  else onSubmit w.

Definition cancel (w : World) : World :=
  if dismissed w then w
  else
    {| state := state w;
       dismissed := true;
       classification := classification w;
       submissions := submissions w;
       log := log w ++ [EvCall onDismissed] |}.

Definition step (w : World) (i : Input) : World :=
  match i with
  | UserConfirm => confirm w
  | UserCancel => cancel w
  | FetchSettled n o now =>
      match classification w with
      | None => w
      | Some slots =>
          match settle slots n o with
          | Some slots' => resumeClassification now slots' w
          | None =>
              {| state := state w;
                 dismissed := dismissed w;
                 classification := None;
                 submissions := submissions w;
                 log := log w |}
          end
      end
  | CallSettled k ok =>
      match nth_error (submissions w) k with
      | Some stage => resumeSubmit k stage ok w
      | None => w
      end
  end.

Definition run (w : World) (inputs : list Input) : World :=
  fold_left step inputs w.

(** The inputs by which the event loop delivers the settlements of the
    fetches in the order of [schedule]. *)
Definition deliver (now : Z)
    (schedule : list (nat * Settlement (option IAPICheckSuite))) : list Input :=
  map (fun e => FetchSettled (fst e) (snd e) now) schedule.

End Instance.

End Dialog.

(** ** What the dialog shows: [renderRerunnableJobsList],
    [renderRerunInfo] and [render]

    Of the elements the three functions return, the model keeps what
    depends on the props and the state: which of the two bodies is shown
    and with which runs, the text of the warning row, and the props handed
    to [Dialog] and [OkCancelButtonGroup]. *)

(** The body of the dialog (lines 136-161): the "Please wait" blank slate,
    or the list container, which holds a [CICheckRunList] of the given runs
    or nothing. *)
Inductive JobsList : Type :=
| PleaseWait
| CheckRunList (shown : option (list IRefCheck)).

(** A number in a template literal: its decimal digits. *)
Definition numberText (n : nat) : string :=
  DecimalString.NilZero.string_of_uint (Nat.to_uint n).

Definition newline : string := String (Ascii.ascii_of_nat 10) EmptyString.

(** The text after the prefix in the template literal of lines 187-189,
    with its two line breaks and the indentation that follows them. *)
Definition explanation : string :=
  (". A check run cannot be re-run if the check is more than one month old,"
   ++ newline
   ++ "          the check has not completed, or the check is not configured to be"
   ++ newline
   ++ "          re-run.")%string.

(** Lines 163-192: [None] for [null], else the text of the warning row. *)
Definition renderRerunInfo (s : State) : option string :=
  if loadingCheckSuites s || (List.length (nonRerunnable s) =? 0)%nat
  then None
  else
    let pluralize :=
      ("check" ++
       (if negb (List.length (nonRerunnable s) =? 1)%nat then "s" else ""))%string
    in
    let verb :=
      (if negb (List.length (nonRerunnable s) =? 1)%nat then "are" else "is")%string
    in
    let warningPrefix :=
      (if (List.length (rerunnable s) =? 0)%nat
       then "There are no checks that can be re-run"
       else "There " ++ verb ++ " " ++
            numberText (List.length (nonRerunnable s)) ++ " " ++
            pluralize ++ " that cannot be re-run")%string
    in
    Some (warningPrefix ++ explanation)%string.

(** Lines 136-161. *)
Definition renderRerunnableJobsList (s : State) : JobsList :=
  if loadingCheckSuites s then PleaseWait
  else
    CheckRunList
      (if (0 <? List.length (rerunnable s))%nat
       then Some (rerunnable s)
       else None).

(** The props [render] hands to [Dialog] and [OkCancelButtonGroup], and the
    two children it places in the content and the footer. *)
Record DialogView : Type := mkView {
  view_id : string;
  view_title : string;
  view_loading : bool;
  view_content : JobsList;
  view_info : option string;
  view_okButtonText : string;
  view_okButtonDisabled : bool
}.

(** Lines 194-220; [DARWIN] is the build constant [__DARWIN__]. *)
Definition render (DARWIN : bool) (P : Props) (s : State) : DialogView :=
  let failed :=
    (if failedOnly P then (if DARWIN then "Failed " else "failed ") else "")%string
  in
  {| view_id := "rerun-check-runs";
     view_title :=
       (if DARWIN then "Re-run " ++ failed ++ "Checks"
        else "Re-run " ++ failed ++ "checks")%string;
     view_loading := loadingCheckSuites s || loadingRerun s;
     view_content := renderRerunnableJobsList s;
     view_info := renderRerunInfo s;
     view_okButtonText :=
       (if DARWIN then "Re-run " ++ failed ++ "Checks"
        else "Re-run " ++ failed ++ "checks")%string;
     view_okButtonDisabled := okButtonDisabled s |}.

(** ** What a log can look like

    Each turn of the event loop adds a block of events to the log.  [Turn P
    R before block] lists the blocks of an instance with props [P] whose
    [rerunnable] is [R], after the events [before]. *)

Inductive Turn (P : Props) (R : list IRefCheck) (before : list Event)
    : list Event -> Prop :=
| turn_fetch (i : Z) :
    Turn P R before [EvCall (fetchCheckSuite (repository P) i)]
| turn_cancel :
    Turn P R before [EvCall onDismissed]
| turn_classified (patch : StatePatch) :
    Turn P R before [EvSetState patch]
| turn_submit :
    R <> [] ->
    Turn P R before
      [EvSetState submitting;
       EvCall (rerequestCheckSuites (repository P) R (failedOnly P))]
| turn_refresh :
    In (EvCall (rerequestCheckSuites (repository P) R (failedOnly P))) before ->
    Turn P R before
      [EvResumed (rerequestCheckSuites (repository P) R (failedOnly P));
       EvCall (manualRefreshSubscription (repository P) (prRef P) R)]
| turn_done :
    Turn P R before
      [EvResumed (manualRefreshSubscription (repository P) (prRef P) R);
       EvCall recordRerunChecks;
       EvCall onDismissed].

Inductive Turns (P : Props) (R : list IRefCheck) : list Event -> Prop :=
| turns_nil : Turns P R []
| turns_snoc (before block : list Event) :
    Turns P R before -> Turn P R before block -> Turns P R (before ++ block).

(** The events of an instance that has not classified yet. *)
Definition quietEvent (P : Props) (e : Event) : Prop :=
  e = EvCall onDismissed \/
  exists i, e = EvCall (fetchCheckSuite (repository P) i).

Definition stageOk (P : Props) (R : list IRefCheck) (events : list Event)
    (stage : Stage) : Prop :=
  match stage with
  | AwaitingRerequest c =>
      c = rerequestCheckSuites (repository P) R (failedOnly P) /\
      In (EvCall c) events
  | AwaitingRefresh c =>
      c = manualRefreshSubscription (repository P) (prRef P) R
  end.

(** What holds of an instance between two turns. *)
Definition consistent (P : Props) (w : World) : Prop :=
  match classification w with
  | Some _ =>
      state w = initialState /\ submissions w = [] /\
      Forall (quietEvent P) (log w)
  | None =>
      Turns P (rerunnable (state w)) (log w) /\
      (loadingCheckSuites (state w) = true -> rerunnable (state w) = []) /\
      Forall (stageOk P (rerunnable (state w)) (log w)) (submissions w)
  end.

(** ** Concrete data the statements below are tried on *)

Module Sample.

Open Scope string_scope.

(** The three timestamp texts used below, as [Date.parse] reads them;
    any other text is taken not to be a date. *)
Definition parse (s : string) : option Z :=
  if String.eqb s "2024-01-01T00:00:00Z" then Some 1704067200000
  else if String.eqb s "2024-01-01T01:00:00Z" then Some 1704070800000
  else if String.eqb s "2024-01-30T00:00:00Z" then Some 1706572800000
  else None.

(** 2024-01-31T00:00:00Z *)
Definition now : Z := 1706659200000.

Definition suite (i : Z) (created : string) : IAPICheckSuite :=
  {| id := i; rerequestable := true; runs_rerequestable := true;
     status := Completed; created_at := created |}.

Definition suiteA : IAPICheckSuite := suite 11 "2024-01-30T00:00:00Z".
Definition suiteB : IAPICheckSuite := suite 22 "2024-01-30T00:00:00Z".
Definition suiteThirtyDays : IAPICheckSuite := suite 33 "2024-01-01T00:00:00Z".
Definition suiteAlmostThirtyDays : IAPICheckSuite :=
  suite 44 "2024-01-01T01:00:00Z".

Definition check (i : Z) (c : APICheckConclusion) (s : option Z) : IRefCheck :=
  {| check_id := i; name := "build"; check_status := Completed;
     conclusion := Some c; checkSuiteId := s |}.

Definition failedA : IRefCheck := check 1 Failure (Some 11).
Definition passedA : IRefCheck := check 2 Success (Some 11).
Definition failedB : IRefCheck := check 3 Failure (Some 22).
Definition failedA' : IRefCheck := check 4 Failure (Some 11).
Definition passedB : IRefCheck := check 5 Success (Some 22).
Definition orphan : IRefCheck := check 6 Success None.

Definition fiveRuns : list IRefCheck :=
  [failedA; passedA; failedB; failedA'; passedB].

Definition dialog (runs : list IRefCheck) (failed : bool) : Props :=
  {| repository := "desktop/desktop"; checkRuns := runs;
     prRef := "refs/pull/1/head"; failedOnly := failed |}.

End Sample.

(** * Properties *)

Lemma status_eqb_eq (a b : APICheckStatus) : status_eqb a b = true <-> a = b.
Proof. destruct a, b; simpl; split; congruence. Qed.

Lemma conclusion_eqb_eq (a b : APICheckConclusion) :
  conclusion_eqb a b = true <-> a = b.
Proof. destruct a, b; simpl; split; congruence. Qed.

Lemma isFailure_spec (cr : IRefCheck) :
  isFailure cr = true <-> conclusion cr = Some Failure.
Proof.
  unfold isFailure. destruct (conclusion cr) as [c|].
  - rewrite conclusion_eqb_eq. split; congruence.
  - split; discriminate.
Qed.

Lemma includes_In (ids : list Z) (i : Z) : includes ids i = true <-> In i ids.
Proof.
  unfold includes. rewrite existsb_exists. split.
  - intros [x [Hx Heq]]. apply Z.eqb_eq in Heq. now subst.
  - intros H. exists i. split; [assumption | apply Z.eqb_refl].
Qed.

Lemma includes_not_In (ids : list Z) (i : Z) :
  includes ids i = false <-> ~ In i ids.
Proof.
  rewrite <- includes_In. destruct (includes ids i); split; congruence.
Qed.

Section Eligibility.

Variable Date_parse : string -> option Z.

Lemma recentEnough_spec (now : Z) (cs : IAPICheckSuite) :
  recentEnough Date_parse now cs = true <->
  exists createdAt, Date_parse (created_at cs) = Some createdAt /\
                    createdAt > now - 30 * 86400000.
Proof.
  unfold recentEnough, offsetFromNow, msPerUnit.
  destruct (Date_parse (created_at cs)) as [t|].
  - rewrite Z.gtb_lt. split.
    + intros H. exists t. split; [reflexivity | lia].
    + intros [t' [Heq H]]. injection Heq as <-. lia.
  - split; [discriminate | intros [t [Heq _]]; discriminate].
Qed.

Lemma isRerequestable_spec (now : Z) (cs : IAPICheckSuite) :
  isRerequestable Date_parse now cs = true <->
  rerequestable cs = true /\
  (exists createdAt, Date_parse (created_at cs) = Some createdAt /\
                     createdAt > now - 30 * 86400000) /\
  status cs = Completed.
Proof.
  unfold isRerequestable.
  rewrite !andb_true_iff, recentEnough_spec, status_eqb_eq. tauto.
Qed.

Lemma rerequestableCheckSuiteIds_app (now : Z)
    (l1 l2 : list (option IAPICheckSuite)) :
  rerequestableCheckSuiteIds Date_parse now (l1 ++ l2) =
  rerequestableCheckSuiteIds Date_parse now l1 ++
  rerequestableCheckSuiteIds Date_parse now l2.
Proof.
  induction l1 as [|[cs|] l1 IH]; simpl; try assumption.
  - reflexivity.
  - destruct (isRerequestable Date_parse now cs); simpl; now rewrite IH.
Qed.

Lemma In_rerequestableCheckSuiteIds (now : Z)
    (suites : list (option IAPICheckSuite)) (i : Z) :
  In i (rerequestableCheckSuiteIds Date_parse now suites) <->
  exists cs, In (Some cs) suites /\ id cs = i /\
             isRerequestable Date_parse now cs = true.
Proof.
  induction suites as [|[cs|] suites IH]; simpl.
  - split; [tauto | intros [cs [[] _]]].
  - destruct (isRerequestable Date_parse now cs) eqn:E; simpl; rewrite IH; split.
    + intros [H | [cs' [H1 [H2 H3]]]].
      * exists cs. auto.
      * exists cs'. auto.
    + intros [cs' [[H1 | H1] [H2 H3]]].
      * injection H1 as ->. now left.
      * right. exists cs'. auto.
    + intros [cs' [H1 [H2 H3]]]. exists cs'. auto.
    + intros [cs' [[H1 | H1] [H2 H3]]].
      * injection H1 as ->. congruence.
      * exists cs'. auto.
  - rewrite IH. split.
    + intros [cs [H1 H2]]. exists cs. auto.
    + intros [cs [[H1 | H1] H2]]; [discriminate | exists cs; auto].
Qed.

(** C1.  The eligible-suite-id set ([rerequestableCheckSuiteIds]) is built
    from the fetched suites one by one: a fetched suite adds its id exactly
    when it is rerequestable, its creation time is strictly greater than
    now minus 30 days, and its status is completed; a fetch that came back
    with no result adds nothing.  So an id is in the set exactly when a
    fetched suite with that id passes the three clauses.  A suite created
    exactly 30 days ago is not eligible; one created 29 days and 23 hours
    ago passes the age clause. *)
Theorem eligible_suite_ids (now : Z) :
  (forall cs,
     isRerequestable Date_parse now cs = true <->
     rerequestable cs = true /\
     (exists createdAt, Date_parse (created_at cs) = Some createdAt /\
                        createdAt > now - 30 * 86400000) /\
     status cs = Completed) /\
  (forall before cs after,
     rerequestableCheckSuiteIds Date_parse now (before ++ Some cs :: after) =
     rerequestableCheckSuiteIds Date_parse now before ++
     (if isRerequestable Date_parse now cs then [id cs] else []) ++
     rerequestableCheckSuiteIds Date_parse now after) /\
  (forall before after,
     rerequestableCheckSuiteIds Date_parse now (before ++ None :: after) =
     rerequestableCheckSuiteIds Date_parse now before ++
     rerequestableCheckSuiteIds Date_parse now after) /\
  (forall suites i,
     In i (rerequestableCheckSuiteIds Date_parse now suites) <->
     exists cs, In (Some cs) suites /\ id cs = i /\
                isRerequestable Date_parse now cs = true) /\
  (forall suites cs,
     In (Some cs) suites ->
     (forall cs', In (Some cs') suites -> id cs' = id cs -> cs' = cs) ->
     (In (id cs) (rerequestableCheckSuiteIds Date_parse now suites) <->
      isRerequestable Date_parse now cs = true)) /\
  (forall cs,
     Date_parse (created_at cs) = Some (now - 30 * 86400000) ->
     isRerequestable Date_parse now cs = false) /\
  (forall cs,
     Date_parse (created_at cs) = Some (now - (29 * 86400000 + 23 * 3600000)) ->
     recentEnough Date_parse now cs = true /\
     isRerequestable Date_parse now cs =
       rerequestable cs && status_eqb (status cs) Completed).
Proof.
  split; [intros cs; apply isRerequestable_spec|].
  split.
  { intros before cs after. rewrite rerequestableCheckSuiteIds_app. simpl.
    now destruct (isRerequestable Date_parse now cs). }
  split.
  { intros before after. now rewrite rerequestableCheckSuiteIds_app. }
  split; [intros suites i; apply In_rerequestableCheckSuiteIds|].
  split.
  { intros suites cs Hin Huniq. rewrite In_rerequestableCheckSuiteIds. split.
    - intros [cs' [H1 [H2 H3]]]. now rewrite <- (Huniq cs' H1 H2).
    - intros H. exists cs. auto. }
  split.
  - intros cs Hparse. unfold isRerequestable.
    assert (recentEnough Date_parse now cs = false) as ->.
    { unfold recentEnough, offsetFromNow, msPerUnit. rewrite Hparse.
      rewrite Z.gtb_ltb. apply Z.ltb_ge. lia. }
    now rewrite andb_false_r.
  - intros cs Hparse.
    assert (recentEnough Date_parse now cs = true) as Hrecent.
    { apply recentEnough_spec. eexists. split; [eassumption | lia]. }
    split; [assumption|].
    unfold isRerequestable. now rewrite Hrecent, andb_true_r.
Qed.

End Eligibility.

(** ** The two lists *)

Lemma In_checkRunsToConsider (failedOnly : bool) (checkRuns : list IRefCheck)
    (cr : IRefCheck) :
  In cr (checkRunsToConsider failedOnly checkRuns) <->
  In cr checkRuns /\ (failedOnly = true -> conclusion cr = Some Failure).
Proof.
  unfold checkRunsToConsider. destruct failedOnly.
  - rewrite filter_In, isFailure_spec. tauto.
  - split; [intros H; split; [assumption | discriminate] | tauto].
Qed.

Lemma canRerun_spec (ids : list Z) (cr : IRefCheck) :
  canRerun ids cr = true <-> exists i, checkSuiteId cr = Some i /\ In i ids.
Proof.
  unfold canRerun. destruct (checkSuiteId cr) as [i|].
  - rewrite includes_In. split.
    + intros H. exists i. auto.
    + intros [j [Hj H]]. now injection Hj as ->.
  - split; [discriminate | intros [j [Hj _]]; discriminate].
Qed.

Lemma cannotRerun_spec (failedOnly : bool) (ids : list Z) (cr : IRefCheck) :
  cannotRerun failedOnly ids cr = true <->
  checkSuiteId cr = None \/
  (exists i, checkSuiteId cr = Some i /\ ~ In i ids) \/
  (failedOnly = true /\ conclusion cr = Some Failure).
Proof.
  unfold cannotRerun. destruct (checkSuiteId cr) as [i|].
  - rewrite orb_true_iff, andb_true_iff, negb_true_iff, includes_not_In,
      isFailure_spec.
    split.
    + intros [H | H]; [right; left; exists i; auto | auto].
    + intros [H | [[j [Hj H]] | H]];
        [discriminate | injection Hj as ->; auto | auto].
  - split; auto.
Qed.

Lemma cannotRerun_all (ids : list Z) (cr : IRefCheck) :
  cannotRerun false ids cr = negb (canRerun ids cr).
Proof.
  unfold cannotRerun, canRerun. destruct (checkSuiteId cr); simpl;
    [apply orb_false_r | reflexivity].
Qed.

Lemma filter_complement (A : Type) (f : A -> bool) (l : list A) :
  Permutation (filter f l ++ filter (fun x => negb (f x)) l) l.
Proof.
  induction l as [|x l IH]; simpl; [constructor|].
  destruct (f x); simpl.
  - now constructor.
  - symmetry. apply Permutation_cons_app. now symmetry.
Qed.

Lemma filter_all (A : Type) (f g : A -> bool) (l : list A) :
  (forall x, In x l -> g x = true -> f x = true) ->
  filter f (filter g l) = filter g l.
Proof.
  induction l as [|x l IH]; simpl; intros H; [reflexivity|].
  destruct (g x) eqn:E; simpl.
  - rewrite (H x (or_introl eq_refl) E). f_equal. apply IH.
    intros y Hy. apply H. now right.
  - apply IH. intros y Hy. apply H. now right.
Qed.

Section Lists.

Variable Date_parse : string -> option Z.

Lemma In_part_rerunnable (failedOnly : bool) (checkRuns : list IRefCheck)
    (now : Z) (suites : list (option IAPICheckSuite)) (cr : IRefCheck) :
  In cr (part_rerunnable (classify Date_parse failedOnly checkRuns now suites))
  <->
  In cr (checkRunsToConsider failedOnly checkRuns) /\
  exists i, checkSuiteId cr = Some i /\
            In i (rerequestableCheckSuiteIds Date_parse now suites).
Proof. unfold classify; simpl. now rewrite filter_In, canRerun_spec. Qed.

Lemma In_part_nonRerunnable (failedOnly : bool) (checkRuns : list IRefCheck)
    (now : Z) (suites : list (option IAPICheckSuite)) (cr : IRefCheck) :
  In cr (part_nonRerunnable (classify Date_parse failedOnly checkRuns now suites))
  <->
  In cr checkRuns /\
  (checkSuiteId cr = None \/
   (exists i, checkSuiteId cr = Some i /\
              ~ In i (rerequestableCheckSuiteIds Date_parse now suites)) \/
   (failedOnly = true /\ conclusion cr = Some Failure)).
Proof. unfold classify; simpl. now rewrite filter_In, cannotRerun_spec. Qed.

Lemma In_lists_of_all (checkRuns : list IRefCheck) (now : Z)
    (suites : list (option IAPICheckSuite)) (cr : IRefCheck) :
  let ids := rerequestableCheckSuiteIds Date_parse now suites in
  let p := classify Date_parse false checkRuns now suites in
  (In cr (part_rerunnable p) <-> In cr checkRuns /\ canRerun ids cr = true) /\
  (In cr (part_nonRerunnable p) <-> In cr checkRuns /\ canRerun ids cr = false).
Proof.
  unfold classify, checkRunsToConsider; simpl.
  now rewrite !filter_In, cannotRerun_all, negb_true_iff.
Qed.

Lemma one_list_of_all (checkRuns : list IRefCheck) (now : Z)
    (suites : list (option IAPICheckSuite)) (cr : IRefCheck) :
  let p := classify Date_parse false checkRuns now suites in
  In cr checkRuns ->
  (In cr (part_rerunnable p) /\ ~ In cr (part_nonRerunnable p)) \/
  (In cr (part_nonRerunnable p) /\ ~ In cr (part_rerunnable p)).
Proof.
  intros p Hin.
  destruct (In_lists_of_all checkRuns now suites cr) as [HR HN].
  fold p in HR, HN. rewrite HR, HN.
  destruct (canRerun (rerequestableCheckSuiteIds Date_parse now suites) cr).
  - left. split; [auto | intros [_ H]; discriminate].
  - right. split; [auto | intros [_ H]; discriminate].
Qed.

(** C3.  [nonRerunnable] is taken from the full list of check runs, whatever
    [failedOnly] is: a run is in it exactly when it is one of the check runs
    and its suite id is null, or its suite id is not in the
    eligible-suite-id set, or [failedOnly] is set and the run's own
    conclusion is failure.  So a run outside the working subset is in it
    too when its suite id is null or not in the set. *)
Theorem nonRerunnable_of_all_check_runs (failedOnly : bool)
    (checkRuns : list IRefCheck) (now : Z)
    (suites : list (option IAPICheckSuite)) :
  let ids := rerequestableCheckSuiteIds Date_parse now suites in
  let p := classify Date_parse failedOnly checkRuns now suites in
  (forall cr,
     In cr (part_nonRerunnable p) <->
     In cr checkRuns /\
     (checkSuiteId cr = None \/
      (exists i, checkSuiteId cr = Some i /\ ~ In i ids) \/
      (failedOnly = true /\ conclusion cr = Some Failure))) /\
  (forall cr,
     In cr checkRuns /\ ~ In cr (checkRunsToConsider failedOnly checkRuns) /\
     canRerun ids cr = false ->
     In cr (part_nonRerunnable p)).
Proof.
  intros ids p. split.
  - intros cr. apply In_part_nonRerunnable.
  - intros cr [Hin [_ Hcan]]. apply In_part_nonRerunnable.
    split; [assumption|].
    destruct (checkSuiteId cr) as [i|] eqn:E; [|now left].
    right; left. exists i. split; [reflexivity|].
    unfold canRerun in Hcan. rewrite E in Hcan. now apply includes_not_In.
Qed.

(** C4.  The working subset is the failed runs when [failedOnly] is set and
    all runs otherwise, and [rerunnable] is exactly the runs of the working
    subset whose suite id is not null and is in the eligible-suite-id set.
    With [failedOnly] set and every failed run's suite eligible, [rerunnable]
    is the failed runs: 3 of them for a list of 5 runs with 3 failures. *)
Theorem rerunnable_of_working_subset (failedOnly : bool)
    (checkRuns : list IRefCheck) (now : Z)
    (suites : list (option IAPICheckSuite)) :
  let ids := rerequestableCheckSuiteIds Date_parse now suites in
  let p := classify Date_parse failedOnly checkRuns now suites in
  (forall cr, In cr (checkRunsToConsider failedOnly checkRuns) <->
              In cr checkRuns /\
              (failedOnly = true -> conclusion cr = Some Failure)) /\
  (forall cr, In cr (part_rerunnable p) <->
              In cr (checkRunsToConsider failedOnly checkRuns) /\
              exists i, checkSuiteId cr = Some i /\ In i ids) /\
  (failedOnly = true ->
   (forall cr, In cr checkRuns -> conclusion cr = Some Failure ->
               exists i, checkSuiteId cr = Some i /\ In i ids) ->
   part_rerunnable p = filter isFailure checkRuns /\
   (List.length checkRuns = 5%nat ->
    List.length (filter isFailure checkRuns) = 3%nat ->
    List.length (part_rerunnable p) = 3%nat)).
Proof.
  intros ids p. split; [intros cr; apply In_checkRunsToConsider|].
  split; [intros cr; apply In_part_rerunnable|].
  intros Hfailed Hall.
  assert (part_rerunnable p = filter isFailure checkRuns) as Heq.
  { unfold p, classify, checkRunsToConsider; simpl. rewrite Hfailed.
    apply filter_all. intros cr Hin Hf.
    apply canRerun_spec, Hall; [assumption | now apply isFailure_spec]. }
  split; [assumption | intros _ H3; now rewrite Heq].
Qed.

(** C10.  When [failedOnly] is false, [nonRerunnable] is the complement of
    [rerunnable] in the list of check runs: a check run is in one exactly
    when it is not in the other, no run is in both, every check run is in
    one of them, and the two lists together are a rearrangement of the
    check runs. *)
Theorem nonRerunnable_is_complement (checkRuns : list IRefCheck) (now : Z)
    (suites : list (option IAPICheckSuite)) :
  let p := classify Date_parse false checkRuns now suites in
  (forall cr, In cr (part_rerunnable p) <->
              In cr checkRuns /\ ~ In cr (part_nonRerunnable p)) /\
  (forall cr, In cr (part_nonRerunnable p) <->
              In cr checkRuns /\ ~ In cr (part_rerunnable p)) /\
  (forall cr, ~ (In cr (part_rerunnable p) /\ In cr (part_nonRerunnable p))) /\
  (forall cr, In cr checkRuns <->
              In cr (part_rerunnable p) \/ In cr (part_nonRerunnable p)) /\
  Permutation (part_rerunnable p ++ part_nonRerunnable p) checkRuns.
Proof.
  intros p.
  assert (forall cr,
            (In cr (part_rerunnable p) <->
             In cr checkRuns /\
             canRerun (rerequestableCheckSuiteIds Date_parse now suites) cr
             = true) /\
            (In cr (part_nonRerunnable p) <->
             In cr checkRuns /\
             canRerun (rerequestableCheckSuiteIds Date_parse now suites) cr
             = false)) as H
    by (intros cr; apply In_lists_of_all).
  split; [|split; [|split; [|split]]].
  - intros cr. destruct (H cr) as [HR HN]. rewrite HR, HN.
    destruct (canRerun _ cr); split; intros [Hin Hc]; split;
      try assumption; try reflexivity; try discriminate.
    + intros [_ Hd]. discriminate.
    + exfalso. apply Hc. auto.
  - intros cr. destruct (H cr) as [HR HN]. rewrite HR, HN.
    destruct (canRerun _ cr); split; intros [Hin Hc]; split;
      try assumption; try reflexivity; try discriminate.
    + exfalso. apply Hc. auto.
    + intros [_ Hd]. discriminate.
  - intros cr. destruct (H cr) as [HR HN]. rewrite HR, HN.
    intros [[_ H1] [_ H2]]. congruence.
  - intros cr. destruct (H cr) as [HR HN]. rewrite HR, HN.
    destruct (canRerun _ cr); tauto.
  - unfold p, classify, checkRunsToConsider; simpl.
    erewrite (filter_ext (cannotRerun false _)).
    + apply filter_complement.
    + intros cr. apply cannotRerun_all.
Qed.

(** C2, as the code has it.  Once classification settles, a check run with
    a null suite id is in [nonRerunnable] and not in [rerunnable].  When
    [failedOnly] is false every check run is in exactly one of the two
    lists.  When [failedOnly] is set, a check run whose suite id is not in
    the eligible-suite-id set is in [nonRerunnable] only, and a check run
    that did not fail and whose suite id is in the set is in neither
    list. *)
Theorem each_check_run_classified (failedOnly : bool)
    (checkRuns : list IRefCheck) (now : Z)
    (suites : list (option IAPICheckSuite)) (cr : IRefCheck) :
  In cr checkRuns ->
  let ids := rerequestableCheckSuiteIds Date_parse now suites in
  let p := classify Date_parse failedOnly checkRuns now suites in
  (checkSuiteId cr = None ->
   In cr (part_nonRerunnable p) /\ ~ In cr (part_rerunnable p)) /\
  (failedOnly = false ->
   (In cr (part_rerunnable p) /\ ~ In cr (part_nonRerunnable p)) \/
   (In cr (part_nonRerunnable p) /\ ~ In cr (part_rerunnable p))) /\
  (failedOnly = true ->
   (forall i, checkSuiteId cr = Some i -> ~ In i ids) ->
   In cr (part_nonRerunnable p) /\ ~ In cr (part_rerunnable p)) /\
  (failedOnly = true ->
   conclusion cr <> Some Failure ->
   (exists i, checkSuiteId cr = Some i /\ In i ids) ->
   ~ In cr (part_rerunnable p) /\ ~ In cr (part_nonRerunnable p)).
Proof.
  intros Hin ids p.
  assert (Hnot : (forall i, checkSuiteId cr = Some i -> ~ In i ids) ->
                 In cr (part_nonRerunnable p) /\ ~ In cr (part_rerunnable p)).
  { intros Hno. split.
    - apply In_part_nonRerunnable. split; [assumption|].
      destruct (checkSuiteId cr) as [i|] eqn:E; [|now left].
      right; left. exists i. split; [reflexivity | now apply Hno].
    - unfold p. rewrite In_part_rerunnable.
      intros [_ [i [Hi Hi']]]. exact (Hno i Hi Hi'). }
  split; [|split; [|split]].
  - intros Hnull. apply Hnot. intros i Hi. congruence.
  - intros Hall. unfold p. rewrite Hall. now apply one_list_of_all.
  - intros _. exact Hnot.
  - intros Hfailed Hconc [i [Hi Hi']]. unfold p. rewrite Hfailed. split.
    + rewrite In_part_rerunnable, In_checkRunsToConsider.
      intros [[_ Hf] _]. auto.
    + rewrite In_part_nonRerunnable.
      intros [_ [H | [[j [Hj H]] | [_ H]]]]; [congruence | | auto].
      rewrite Hi in Hj. injection Hj as <-. auto.
Qed.

End Lists.

(** ** One fetch for each suite id *)

Lemma key_eqb_eq (a b : option Z) : key_eqb a b = true <-> a = b.
Proof.
  destruct a as [x|], b as [y|]; simpl; try (split; congruence).
  rewrite Z.eqb_eq. split; congruence.
Qed.

Lemma Set_has_In (s : list (option Z)) (k : option Z) :
  Set_has s k = true <-> In k s.
Proof.
  unfold Set_has. rewrite existsb_exists. split.
  - intros [x [Hx Heq]]. apply key_eqb_eq in Heq. now subst.
  - intros H. exists k. split; [assumption | now apply key_eqb_eq].
Qed.

Lemma Set_add_spec (s : list (option Z)) (k : option Z) :
  NoDup s ->
  NoDup (Set_add s k) /\ forall x, In x (Set_add s k) <-> In x s \/ x = k.
Proof.
  intros Hs. unfold Set_add. destruct (Set_has s k) eqn:E.
  - apply Set_has_In in E. split; [assumption|].
    intros x. split; [auto | intros [H | ->]; assumption].
  - assert (~ In k s) as Hk by (rewrite <- Set_has_In; congruence).
    split.
    + apply NoDup_app; [assumption | repeat constructor; auto |].
      intros x Hx [-> | []]. contradiction.
    + intros x. rewrite in_app_iff. simpl. intuition congruence.
Qed.

Lemma fold_Set_add_spec (values s : list (option Z)) :
  NoDup s ->
  NoDup (fold_left Set_add values s) /\
  forall x, In x (fold_left Set_add values s) <-> In x s \/ In x values.
Proof.
  revert s. induction values as [|v values IH]; simpl; intros s Hs.
  - split; [assumption | tauto].
  - destruct (Set_add_spec v Hs) as [Hnd Hin].
    destruct (IH _ Hnd) as [Hnd' Hin']. split; [assumption|].
    intros x. rewrite Hin', Hin. intuition congruence.
Qed.

Lemma new_Set_spec (values : list (option Z)) :
  NoDup (new_Set values) /\ forall x, In x (new_Set values) <-> In x values.
Proof.
  destruct (@fold_Set_add_spec values [] (NoDup_nil _)) as [Hnd Hin].
  split; [assumption|]. intros x. unfold new_Set. rewrite Hin. simpl. tauto.
Qed.

Lemma In_fetchedIds (ids : list (option Z)) (i : Z) :
  In i (fetchedIds ids) <-> In (Some i) ids.
Proof.
  induction ids as [|[j|] ids IH]; simpl; [tauto| |].
  - rewrite IH. split; intros [H | H]; auto; left; congruence.
  - rewrite IH. split; [auto | intros [H | H]; [discriminate | assumption]].
Qed.

Lemma NoDup_fetchedIds (ids : list (option Z)) :
  NoDup ids -> NoDup (fetchedIds ids).
Proof.
  induction 1 as [|[j|] ids Hnot Hnd IH]; simpl; [constructor | | assumption].
  constructor; [now rewrite In_fetchedIds | assumption].
Qed.

Lemma fetches_spec (considered : list IRefCheck) :
  NoDup (fetchedIds (checkSuiteIds considered)) /\
  forall i, In i (fetchedIds (checkSuiteIds considered)) <->
            exists cr, In cr considered /\ checkSuiteId cr = Some i.
Proof.
  unfold checkSuiteIds.
  destruct (new_Set_spec (map checkSuiteId considered)) as [Hnd Hin].
  split; [now apply NoDup_fetchedIds|].
  intros i. rewrite In_fetchedIds, Hin, in_map_iff. split.
  - intros [cr [H1 H2]]. exists cr. auto.
  - intros [cr [H1 H2]]. exists cr. auto.
Qed.

(** ** [Promise.all] *)

Section Join.

Variable A : Type.

Lemma fill_length (slots : list (option A)) (i : nat) (v : A) :
  List.length (fill slots i v) = List.length slots.
Proof.
  revert i. induction slots as [|[u|] slots IH]; intros [|i]; simpl;
    try reflexivity; now rewrite IH.
Qed.

Lemma nth_error_fill_other (slots : list (option A)) (i j : nat) (v : A) :
  i <> j -> nth_error (fill slots i v) j = nth_error slots j.
Proof.
  revert i j. induction slots as [|[u|] slots IH]; intros [|i] [|j] Hne;
    simpl; try reflexivity; try congruence; apply IH; congruence.
Qed.

Lemma nth_error_fill_pending (slots : list (option A)) (i : nat) (v : A) :
  nth_error slots i = Some None ->
  nth_error (fill slots i v) i = Some (Some v).
Proof.
  revert i. induction slots as [|[u|] slots IH]; intros [|i]; simpl;
    try discriminate; try reflexivity; apply IH.
Qed.

Lemma fill_comm (slots : list (option A)) (i j : nat) (v u : A) :
  i <> j -> fill (fill slots i v) j u = fill (fill slots j u) i v.
Proof.
  revert i j. induction slots as [|[w|] slots IH]; intros [|i] [|j] Hne;
    simpl; try reflexivity; try congruence; f_equal; apply IH; congruence.
Qed.

Lemma settle_comm (slots : list (option A)) (i j : nat) (o o' : Settlement A) :
  i <> j ->
  match settle slots i o with
  | Some slots' => settle slots' j o'
  | None => None
  end =
  match settle slots j o' with
  | Some slots' => settle slots' i o
  | None => None
  end.
Proof.
  intros Hne. unfold settle.
  destruct (nth_error slots i) as [[a|]|] eqn:Ei;
    destruct (nth_error slots j) as [[b|]|] eqn:Ej;
    rewrite ?Ei, ?Ej; try reflexivity;
    destruct o, o'; 
    rewrite ?nth_error_fill_other, ?Ei, ?Ej by congruence;
    try reflexivity.
  now rewrite fill_comm.
Qed.

Lemma settleAll_cons (slots : list (option A)) (i : nat) (o : Settlement A)
    (rest : list (nat * Settlement A)) :
  settleAll slots ((i, o) :: rest) =
  match settle slots i o with
  | Some slots' => settleAll slots' rest
  | None => None
  end.
Proof. reflexivity. Qed.

Lemma settleAll_swap (slots : list (option A)) (i j : nat)
    (o o' : Settlement A) (rest : list (nat * Settlement A)) :
  i <> j ->
  settleAll slots ((i, o) :: (j, o') :: rest) =
  settleAll slots ((j, o') :: (i, o) :: rest).
Proof.
  intros Hne. rewrite (settleAll_cons slots i), (settleAll_cons slots j).
  pose proof (settle_comm slots o o' Hne) as Hc.
  destruct (settle slots i o) as [si|], (settle slots j o') as [sj|];
    rewrite ?settleAll_cons; try rewrite Hc; try rewrite <- Hc;
    reflexivity.
Qed.

Lemma settleAll_Permutation (s1 s2 : list (nat * Settlement A)) :
  Permutation s1 s2 ->
  NoDup (map fst s1) ->
  forall slots, settleAll slots s1 = settleAll slots s2.
Proof.
  induction 1 as [| [i o] l l' Hperm IH | [i o] [j o'] l | l l' l'' H1 IH1 H2 IH2];
    intros Hnd slots.
  - reflexivity.
  - simpl in Hnd. inversion Hnd; subst. rewrite !settleAll_cons.
    destruct (settle slots i o); [now apply IH | reflexivity].
  - simpl in Hnd. inversion Hnd as [|? ? Hnot Hnd']; subst.
    apply settleAll_swap. intros ->. apply Hnot. now left.
  - rewrite IH1 by assumption. apply IH2.
    eapply Permutation_NoDup; [apply Permutation_map; eassumption | assumption].
Qed.

Lemma Promise_all_Permutation (n : nat) (s1 s2 : list (nat * Settlement A)) :
  Permutation s1 s2 ->
  NoDup (map fst s1) ->
  Promise_all n s1 = Promise_all n s2.
Proof.
  intros Hperm Hnd. unfold Promise_all.
  now rewrite (settleAll_Permutation Hperm Hnd).
Qed.

End Join.

Section Settled.

Variable A : Type.

Lemma settle_length (slots slots' : list (option A)) (i : nat)
    (o : Settlement A) :
  settle slots i o = Some slots' -> List.length slots' = List.length slots.
Proof.
  unfold settle. destruct (nth_error slots i) as [[a|]|]; try congruence.
  destruct o; [|discriminate]. intros H. injection H as <-. apply fill_length.
Qed.

Lemma settle_other (slots slots' : list (option A)) (i k : nat)
    (o : Settlement A) :
  settle slots i o = Some slots' -> i <> k ->
  nth_error slots' k = nth_error slots k.
Proof.
  unfold settle. destruct (nth_error slots i) as [[a|]|]; try congruence.
  destruct o; [|discriminate]. intros H Hne. injection H as <-.
  now apply nth_error_fill_other.
Qed.

Lemma settle_filled (slots slots' : list (option A)) (i k : nat)
    (o : Settlement A) (x : A) :
  settle slots i o = Some slots' ->
  nth_error slots k = Some (Some x) -> nth_error slots' k = Some (Some x).
Proof.
  intros Hs Hk. destruct (Nat.eq_dec i k) as [->|Hne].
  - unfold settle in Hs. rewrite Hk in Hs. congruence.
  - now rewrite (settle_other _ _ Hs Hne).
Qed.

Lemma settleAll_rejected (schedule : list (nat * Settlement A)) :
  NoDup (map fst schedule) ->
  forall (slots : list (option A)) (k : nat),
    In (k, Rejected) schedule ->
    nth_error slots k = Some None ->
    settleAll slots schedule = None.
Proof.
  induction schedule as [|[i o] rest IH]; simpl; intros Hnd slots k Hin Hk;
    [contradiction|].
  inversion Hnd as [|? ? Hnot Hnd']; subst.
  destruct Hin as [Heq | Hin].
  - injection Heq as -> ->. unfold settle. now rewrite Hk.
  - assert (i <> k) as Hne.
    { intros ->. apply Hnot. apply in_map_iff. exists (k, Rejected). auto. }
    destruct (settle slots i o) as [slots'|] eqn:E; [|reflexivity].
    apply (IH Hnd' slots' k Hin). now rewrite (settle_other _ _ E Hne).
Qed.

Lemma settleAll_fulfilled (schedule : list (nat * Settlement A)) :
  NoDup (map fst schedule) ->
  forall slots : list (option A),
    (forall k, In (k, Rejected) schedule -> nth_error slots k = None) ->
    exists slots',
      settleAll slots schedule = Some slots' /\
      List.length slots' = List.length slots /\
      (forall k x, nth_error slots k = Some (Some x) ->
                   nth_error slots' k = Some (Some x)) /\
      (forall k v, nth_error slots k = Some None ->
                   In (k, Fulfilled v) schedule ->
                   nth_error slots' k = Some (Some v)) /\
      (forall k, nth_error slots k = Some None ->
                 ~ In k (map fst schedule) ->
                 nth_error slots' k = Some None).
Proof.
  induction schedule as [|[i o] rest IH]; simpl; intros Hnd slots Hrej.
  - exists slots. repeat split; auto. intros k v _ [].
  - inversion Hnd as [|? ? Hnot Hnd']; subst.
    assert (exists s1, settle slots i o = Some s1) as [s1 Hs1].
    { unfold settle. destruct (nth_error slots i) as [[a|]|] eqn:E; eauto.
      destruct o; eauto.
      rewrite (Hrej i (or_introl eq_refl)) in E. discriminate. }
    rewrite Hs1.
    assert (Hlen1 : List.length s1 = List.length slots)
      by (eapply settle_length; eassumption).
    destruct (IH Hnd' s1) as [s' [Hall [Hlen [Hkeep [Hnew Hpend]]]]].
    { intros k Hk. apply nth_error_None. rewrite Hlen1.
      apply nth_error_None. apply Hrej. now right. }
    exists s'. split; [assumption|]. split; [congruence|].
    split; [|split].
    + intros k x Hk. apply Hkeep. eapply settle_filled; eassumption.
    + intros k v Hk [Heq | Hin].
      * injection Heq as -> ->. apply Hkeep.
        unfold settle in Hs1. rewrite Hk in Hs1. injection Hs1 as <-.
        now apply nth_error_fill_pending.
      * apply Hnew; [|assumption].
        rewrite (settle_other _ _ Hs1); [assumption|].
        intros ->. apply Hnot. apply in_map_iff.
        exists (k, Fulfilled v). auto.
    + intros k Hk Hnotin. apply Hpend; [|tauto].
      rewrite (settle_other _ _ Hs1); [assumption | intros ->; tauto].
Qed.

Lemma joined_Some (slots : list (option A)) (values : list A) :
  joined slots = Some values <-> slots = map Some values.
Proof.
  revert values. induction slots as [|[v|] slots IH]; simpl; intros values.
  - split.
    + intros H. now injection H as <-.
    + destruct values; [reflexivity | discriminate].
  - destruct (joined slots) as [vs|] eqn:E.
    + split.
      * intros H. injection H as <-. simpl. f_equal. now apply IH.
      * destruct values as [|v' values]; [discriminate|]. simpl.
        intros H. injection H as -> H. apply IH in H. congruence.
    + split; [discriminate|].
      destruct values as [|v' values]; [discriminate|]. simpl.
      intros H. injection H as -> H. apply IH in H. discriminate.
  - split; [discriminate | destruct values; discriminate].
Qed.

Lemma joined_all_filled (slots : list (option A)) :
  (forall k, (k < List.length slots)%nat ->
             exists v, nth_error slots k = Some (Some v)) ->
  exists values, joined slots = Some values.
Proof.
  induction slots as [|s slots IH]; simpl; intros H; [eauto|].
  destruct (H 0%nat) as [v Hv]; [lia|]. simpl in Hv. injection Hv as ->.
  destruct IH as [vs Hvs].
  - intros k Hk. apply (H (S k)). lia.
  - rewrite Hvs. eauto.
Qed.

Lemma joined_pending (slots : list (option A)) (k : nat) :
  nth_error slots k = Some None -> joined slots = None.
Proof.
  revert k. induction slots as [|[v|] slots IH]; intros [|k]; simpl;
    try discriminate; try reflexivity.
  intros H. now rewrite (IH _ H).
Qed.

Lemma nth_error_repeat_None (n k : nat) :
  (k < n)%nat -> nth_error (repeat (@None A) n) k = Some None.
Proof.
  revert k. induction n as [|n IH]; intros [|k] H; simpl; try lia;
    [reflexivity | apply IH; lia].
Qed.

Lemma settle_joined (slots : list (option A)) (values : list A) (i : nat)
    (o : Settlement A) :
  joined slots = Some values -> settle slots i o = Some slots.
Proof.
  intros H. apply joined_Some in H. subst. unfold settle.
  rewrite nth_error_map. now destruct (nth_error values i).
Qed.

End Settled.

(** ** The fetches of one pass *)

Lemma includes_ext (ids ids' : list Z) (i : Z) :
  (forall j, In j ids <-> In j ids') -> includes ids i = includes ids' i.
Proof.
  intros H. destruct (includes ids' i) eqn:E.
  - apply includes_In, H, includes_In, E.
  - apply includes_not_In. rewrite H. now apply includes_not_In.
Qed.

Section Fetches.

Variable Date_parse : string -> option Z.

Lemma rerequestableCheckSuiteIds_Permutation (now : Z)
    (suites suites' : list (option IAPICheckSuite)) :
  Permutation suites suites' ->
  Permutation (rerequestableCheckSuiteIds Date_parse now suites)
              (rerequestableCheckSuiteIds Date_parse now suites').
Proof.
  induction 1 as [| [cs|] l l' _ IH | [x|] [y|] l | l l' l'' _ IH1 _ IH2];
    simpl.
  - constructor.
  - destruct (isRerequestable Date_parse now cs); [now constructor | assumption].
  - assumption.
  - destruct (isRerequestable Date_parse now x),
      (isRerequestable Date_parse now y);
      try reflexivity. constructor.
  - reflexivity.
  - reflexivity.
  - reflexivity.
  - now transitivity (rerequestableCheckSuiteIds Date_parse now l').
Qed.

Lemma classify_Permutation (failedOnly : bool) (checkRuns : list IRefCheck)
    (now : Z) (suites suites' : list (option IAPICheckSuite)) :
  Permutation suites suites' ->
  classify Date_parse failedOnly checkRuns now suites =
  classify Date_parse failedOnly checkRuns now suites'.
Proof.
  intros Hperm.
  pose proof (rerequestableCheckSuiteIds_Permutation now Hperm) as Hids.
  assert (forall i,
            includes (rerequestableCheckSuiteIds Date_parse now suites) i =
            includes (rerequestableCheckSuiteIds Date_parse now suites') i)
    as Hinc.
  { intros i. apply includes_ext. intros j. split; apply Permutation_in;
      [assumption | now symmetry]. }
  unfold classify. f_equal; apply filter_ext; intros cr.
  - unfold canRerun. destruct (checkSuiteId cr); [apply Hinc | reflexivity].
  - unfold cannotRerun. destruct (checkSuiteId cr); [|reflexivity].
    now rewrite Hinc.
Qed.

(** The instance, when the event loop delivers the settlements of
    [schedule] and nothing else, ends in the state [determineRerunnability]
    sets. *)

Lemma settleAll_joined (schedule : list (nat * Settlement (option IAPICheckSuite)))
    (slots : list (option (option IAPICheckSuite)))
    (suites : list (option IAPICheckSuite)) :
  joined slots = Some suites -> settleAll slots schedule = Some slots.
Proof.
  intros H. induction schedule as [|[i o] rest IH]; simpl; [reflexivity|].
  now rewrite (@settle_joined _ _ _ i o H).
Qed.

Lemma run_classified (P : Props) (now : Z)
    (schedule : list (nat * Settlement (option IAPICheckSuite))) (w : World) :
  classification w = None ->
  run Date_parse P w
    (map (fun e => FetchSettled (fst e) (snd e) now) schedule) = w.
Proof.
  intros H. induction schedule as [|[i o] rest IH]; simpl; [reflexivity|].
  now rewrite H.
Qed.

Lemma run_cons (P : Props) (w : World) (i : Input) (rest : list Input) :
  run Date_parse P w (i :: rest) =
  run Date_parse P (step Date_parse P w i) rest.
Proof. reflexivity. Qed.

Lemma run_pending (P : Props) (now : Z)
    (schedule : list (nat * Settlement (option IAPICheckSuite))) :
  forall (slots : list (option (option IAPICheckSuite))) (w : World),
    classification w = Some slots -> joined slots = None ->
    dismissed w = false ->
    state (run Date_parse P w
             (map (fun e => FetchSettled (fst e) (snd e) now) schedule)) =
    match settleAll slots schedule with
    | Some slots' =>
        match joined slots' with
        | Some suites =>
            setState (classifiedPatch Date_parse P now suites) (state w)
        | None => state w
        end
    | None => state w
    end.
Proof.
  induction schedule as [|[i o] rest IH]; intros slots w Hcls Hpending Hlive.
  - simpl. now rewrite Hpending.
  - cbn [map fst snd]. rewrite run_cons, settleAll_cons. cbn [step].
    rewrite Hcls. destruct (settle slots i o) as [slots'|].
    + unfold resumeClassification.
      destruct (joined slots') as [suites|] eqn:Ej.
      * rewrite run_classified by reflexivity. cbn [state]. rewrite Hlive.
        now rewrite (@settleAll_joined rest _ _ Ej), Ej.
      * now rewrite (IH slots') by (reflexivity || assumption).
    + now rewrite run_classified by reflexivity.
Qed.

Lemma run_fetches (P : Props) (now : Z)
    (schedule : list (nat * Settlement (option IAPICheckSuite))) :
  state (run Date_parse P (construct Date_parse P now)
           (map (fun e => FetchSettled (fst e) (snd e) now) schedule)) =
  match determineRerunnability Date_parse (failedOnly P) (checkRuns P) now
          schedule with
  | Some p =>
      {| loadingCheckSuites := false;
         loadingRerun := false;
         rerunnable := part_rerunnable p;
         nonRerunnable := part_nonRerunnable p |}
  | None => initialState
  end.
Proof.
  unfold construct, determineRerunnability, Promise_all.
  set (promises := fetchedIds
         (checkSuiteIds (checkRunsToConsider (failedOnly P) (checkRuns P)))).
  rewrite map_const.
  set (w0 := {| state := initialState; dismissed := false;
                classification := None; submissions := [];
                log := map (fun i => EvCall (fetchCheckSuite (repository P) i))
                           promises |}).
  unfold resumeClassification.
  destruct (joined (repeat None (List.length promises))) as [suites|] eqn:Ej.
  - rewrite run_classified by reflexivity.
    now rewrite (@settleAll_joined schedule _ _ Ej), Ej.
  - rewrite (@run_pending P now schedule (repeat None (List.length promises)))
      by (reflexivity || assumption).
    cbn [state].
    destruct (settleAll (repeat None (List.length promises)) schedule)
      as [slots'|]; [|reflexivity].
    now destruct (joined slots').
Qed.

(** C9.  One fetch is issued for each distinct non-null suite id of the
    working subset, and the outcome of the pass does not depend on the
    order in which these fetches settle: two schedules that settle the same
    promises with the same results, in any two orders, give the same
    result of [determineRerunnability] and leave the instance in the same
    state.  The two lists do not even depend on the order of the array of
    fetched suites, only on which suites are in it. *)
Theorem settle_order_is_irrelevant (P : Props) (now : Z) :
  let considered := checkRunsToConsider (failedOnly P) (checkRuns P) in
  let promises := fetchedIds (checkSuiteIds considered) in
  NoDup promises /\
  (forall i, In i promises <->
             exists cr, In cr considered /\ checkSuiteId cr = Some i) /\
  log (construct Date_parse P now) =
    map (fun i => EvCall (fetchCheckSuite (repository P) i)) promises ++
    match promises with
    | [] => [EvSetState (classifiedPatch Date_parse P now [])]
    | _ :: _ => []
    end /\
  (forall schedule schedule',
     NoDup (map fst schedule) ->
     Permutation schedule schedule' ->
     determineRerunnability Date_parse (failedOnly P) (checkRuns P) now
       schedule =
     determineRerunnability Date_parse (failedOnly P) (checkRuns P) now
       schedule' /\
     state (run Date_parse P (construct Date_parse P now)
              (deliver now schedule)) =
     state (run Date_parse P (construct Date_parse P now)
              (deliver now schedule'))) /\
  (forall suites suites',
     Permutation suites suites' ->
     classify Date_parse (failedOnly P) (checkRuns P) now suites =
     classify Date_parse (failedOnly P) (checkRuns P) now suites').
Proof.
  intros considered promises.
  destruct (fetches_spec considered) as [Hnd Hin].
  split; [assumption|]. split; [assumption|]. split; [|split].
  - unfold construct. fold considered. fold promises.
    unfold resumeClassification.
    destruct promises; simpl; [reflexivity | now rewrite app_nil_r].
  - intros schedule schedule' Hsch Hperm.
    assert (determineRerunnability Date_parse (failedOnly P) (checkRuns P) now
              schedule =
            determineRerunnability Date_parse (failedOnly P) (checkRuns P) now
              schedule') as Heq.
    { unfold determineRerunnability.
      now rewrite (Promise_all_Permutation _ Hperm Hsch). }
    split; [assumption|]. unfold deliver. now rewrite !run_fetches, Heq.
  - intros suites suites'. apply classify_Permutation.
Qed.

Lemma settles_once (B : Type) (schedule : list (nat * B)) (k : nat)
    (a b : B) :
  NoDup (map fst schedule) ->
  In (k, a) schedule -> In (k, b) schedule -> a = b.
Proof.
  induction schedule as [|[i o] rest IH]; simpl; intros Hnd Ha Hb;
    [contradiction|].
  inversion Hnd as [|? ? Hnot Hnd']; subst.
  assert (forall c, In (i, c) rest -> False) as Hfresh.
  { intros c Hc. apply Hnot. apply in_map_iff. exists (i, c). auto. }
  destruct Ha as [Ha | Ha], Hb as [Hb | Hb].
  - congruence.
  - injection Ha as -> _. destruct (Hfresh _ Hb).
  - injection Hb as -> _. destruct (Hfresh _ Ha).
  - now apply IH.
Qed.

Lemma all_fulfilled (n : nat)
    (schedule : list (nat * Settlement (option IAPICheckSuite))) :
  NoDup (map fst schedule) ->
  (forall k, (k < n)%nat -> exists r, In (k, Fulfilled r) schedule) ->
  exists suites,
    Promise_all n schedule = AllFulfilled suites /\
    List.length suites = n /\
    (forall k r, (k < n)%nat ->
       (nth_error suites k = Some r <-> In (k, Fulfilled r) schedule)).
Proof.
  intros Hnd Hall.
  destruct (@settleAll_fulfilled _ schedule Hnd (repeat None n))
    as [slots [Hrun [Hlen [_ [Hnew _]]]]].
  { intros k Hk. apply nth_error_None. rewrite repeat_length.
    destruct (Nat.lt_ge_cases k n) as [Hlt|]; [|assumption].
    destruct (Hall k Hlt) as [r Hr].
    pose proof (@settles_once _ _ _ _ _ Hnd Hr Hk). discriminate. }
  rewrite repeat_length in Hlen.
  assert (forall k r, (k < n)%nat -> In (k, Fulfilled r) schedule ->
                      nth_error slots k = Some (Some r)) as Hslot.
  { intros k r Hk Hin. apply Hnew; [|assumption].
    now apply nth_error_repeat_None. }
  destruct (@joined_all_filled _ slots) as [suites Hj].
  { intros k Hk. rewrite Hlen in Hk. destruct (Hall k Hk) as [r Hr].
    exists r. now apply Hslot. }
  exists suites. unfold Promise_all. rewrite Hrun, Hj.
  split; [reflexivity|].
  apply joined_Some in Hj. subst slots. rewrite length_map in Hlen.
  split; [assumption|].
  intros k r Hk. split.
  - intros Hnth. destruct (Hall k Hk) as [r' Hr'].
    pose proof (Hslot k r' Hk Hr') as H. rewrite nth_error_map, Hnth in H.
    simpl in H. now injection H as ->.
  - intros Hin. pose proof (Hslot k r Hk Hin) as H.
    rewrite nth_error_map in H. destruct (nth_error suites k); simpl in H;
      congruence.
Qed.

Lemma one_rejected (n : nat)
    (schedule : list (nat * Settlement (option IAPICheckSuite))) (k : nat) :
  NoDup (map fst schedule) ->
  (k < n)%nat -> In (k, Rejected) schedule ->
  Promise_all n schedule = AllRejected.
Proof.
  intros Hnd Hk Hin. unfold Promise_all.
  now rewrite (@settleAll_rejected _ _ Hnd _ _ Hin (@nth_error_repeat_None _ _ _ Hk)).
Qed.

(** C5, as the code has it.  A fetch that resolves to no result only
    leaves its suite out of the eligible-suite-id set: when every fetch of
    the pass resolves, to a suite or to nothing, classification completes
    with the array of the results in the order of the promises and sets the
    state, every id in the eligible set comes from a fetch that resolved to
    a suite, and the runs of a suite whose fetch resolved eligible are in
    [rerunnable].  A fetch that rejects rejects the join, and
    [determineRerunnability] then never sets the state. *)
Theorem fetch_without_result_is_ineligible (P : Props) (now : Z)
    (schedule : list (nat * Settlement (option IAPICheckSuite))) :
  let considered := checkRunsToConsider (failedOnly P) (checkRuns P) in
  let promises := fetchedIds (checkSuiteIds considered) in
  let w := run Date_parse P (construct Date_parse P now)
             (deliver now schedule) in
  NoDup (map fst schedule) ->
  ((forall k, (k < List.length promises)%nat ->
              exists r, In (k, Fulfilled r) schedule) ->
   exists suites,
     let p := classify Date_parse (failedOnly P) (checkRuns P) now suites in
     determineRerunnability Date_parse (failedOnly P) (checkRuns P) now
       schedule = Some p /\
     state w = {| loadingCheckSuites := false;
                  loadingRerun := false;
                  rerunnable := part_rerunnable p;
                  nonRerunnable := part_nonRerunnable p |} /\
     List.length suites = List.length promises /\
     (forall k r, (k < List.length promises)%nat ->
        (nth_error suites k = Some r <-> In (k, Fulfilled r) schedule)) /\
     (forall i,
        In i (rerequestableCheckSuiteIds Date_parse now suites) ->
        exists k cs, In (k, Fulfilled (Some cs)) schedule /\ id cs = i /\
                     isRerequestable Date_parse now cs = true) /\
     (forall cr k cs,
        In cr considered ->
        (k < List.length promises)%nat ->
        In (k, Fulfilled (Some cs)) schedule ->
        checkSuiteId cr = Some (id cs) ->
        isRerequestable Date_parse now cs = true ->
        In cr (part_rerunnable p))) /\
  (forall k, (k < List.length promises)%nat ->
             In (k, Rejected) schedule ->
             determineRerunnability Date_parse (failedOnly P) (checkRuns P)
               now schedule = None /\
             state w = initialState).
Proof.
  intros considered promises w Hnd. split.
  - intros Hall.
    destruct (all_fulfilled _ Hnd Hall) as [suites [Hjoin [Hlen Hnth]]].
    exists suites. intros p.
    assert (determineRerunnability Date_parse (failedOnly P) (checkRuns P) now
              schedule = Some p) as Hdet.
    { unfold determineRerunnability. fold considered. fold promises.
      now rewrite Hjoin. }
    split; [assumption|]. split.
    { unfold w, deliver. now rewrite run_fetches, Hdet. }
    split; [assumption|]. split; [assumption|]. split.
    + intros i Hi. apply In_rerequestableCheckSuiteIds in Hi.
      destruct Hi as [cs [Hin [Hid Hok]]].
      destruct (In_nth_error _ _ Hin) as [k Hk].
      assert (k < List.length promises)%nat as Hlt.
      { rewrite <- Hlen. apply nth_error_Some. congruence. }
      exists k, cs. split; [now apply Hnth | auto].
    + intros cr k cs Hcr Hk Hin Hsuite Hok. apply In_part_rerunnable.
      split; [assumption|]. exists (id cs). split; [assumption|].
      apply In_rerequestableCheckSuiteIds. exists cs.
      split; [|auto]. apply Hnth in Hin; [|assumption].
      eapply nth_error_In; eassumption.
  - intros k Hk Hin.
    assert (determineRerunnability Date_parse (failedOnly P) (checkRuns P) now
              schedule = None) as Hdet.
    { unfold determineRerunnability. fold considered. fold promises.
      now rewrite (one_rejected _ Hnd Hk Hin). }
    split; [assumption|]. unfold w, deliver. now rewrite run_fetches, Hdet.
Qed.

End Fetches.

(** ** The instance over the turns of the event loop *)

Lemma quiet_Turns (P : Props) (R : list IRefCheck) (events : list Event) :
  Forall (quietEvent P) events -> Turns P R events.
Proof.
  induction events as [|e events IH] using rev_ind; intros H; [constructor|].
  apply Forall_app in H. destruct H as [H He].
  apply turns_snoc; [now apply IH|].
  inversion He as [|? ? [-> | [i ->]] _]; subst; constructor.
Qed.

Lemma stageOk_later (P : Props) (R : list IRefCheck)
    (events block : list Event) (stage : Stage) :
  stageOk P R events stage -> stageOk P R (events ++ block) stage.
Proof.
  destruct stage; simpl; [|auto].
  intros [H1 H2]. split; [assumption | apply in_or_app; now left].
Qed.

Lemma Forall_dropNth (A : Type) (Q : A -> Prop) (l : list A) (k : nat) :
  Forall Q l -> Forall Q (dropNth l k).
Proof.
  intros H. revert k. induction H as [|x l Hx Hl IH]; intros [|k]; simpl;
    auto.
Qed.

Lemma Forall_setNth (A : Type) (Q : A -> Prop) (l : list A) (k : nat)
    (v : A) :
  Forall Q l -> Q v -> Forall Q (setNth l k v).
Proof.
  intros H Hv. revert k. induction H as [|x l Hx Hl IH]; intros [|k]; simpl;
    auto.
Qed.

Lemma Forall_nth_error (A : Type) (Q : A -> Prop) (l : list A) (k : nat)
    (x : A) :
  Forall Q l -> nth_error l k = Some x -> Q x.
Proof.
  intros H Hk. rewrite Forall_forall in H. apply H.
  eapply nth_error_In; eassumption.
Qed.

Lemma okButtonDisabled_spec (s : State) :
  okButtonDisabled s = true <-> rerunnable s = [].
Proof.
  unfold okButtonDisabled. rewrite Nat.eqb_eq. apply length_zero_iff_nil.
Qed.

Lemma consistent_confirm (P : Props) (w : World) :
  consistent P w -> consistent P (confirm P w).
Proof.
  intros H. unfold confirm. destruct (dismissed w); [assumption|].
  destruct (okButtonDisabled (state w)) eqn:E; [assumption|].
  assert (rerunnable (state w) <> []) as HR.
  { intros Hnil. apply okButtonDisabled_spec in Hnil. congruence. }
  unfold consistent in *. unfold onSubmit; simpl.
  destruct (classification w) as [slots|].
  - destruct H as [Hinit _]. rewrite Hinit in HR. now destruct HR.
  - destruct H as [Hturns [Hload Hstages]]. split; [|split].
    + apply turns_snoc; [assumption | now constructor].
    + assumption.
    + apply Forall_app. split.
      * eapply Forall_impl; [|eassumption]. intros stage.
        apply stageOk_later.
      * repeat constructor. simpl. apply in_or_app. right. simpl. auto.
Qed.

Lemma consistent_cancel (P : Props) (w : World) :
  consistent P w -> consistent P (cancel w).
Proof.
  intros H. unfold cancel. destruct (dismissed w); [assumption|].
  unfold consistent in *; simpl. destruct (classification w) as [slots|].
  - destruct H as [Hinit [Hsubs Hquiet]]. repeat split; try assumption.
    apply Forall_app. split; [assumption|]. repeat constructor.
  - destruct H as [Hturns [Hload Hstages]]. split; [|split].
    + apply turns_snoc; [assumption | constructor].
    + assumption.
    + eapply Forall_impl; [|eassumption]. intros stage. apply stageOk_later.
Qed.

Lemma consistent_resumeSubmit (P : Props) (w : World) (k : nat)
    (stage : Stage) (ok : bool) :
  consistent P w ->
  nth_error (submissions w) k = Some stage ->
  consistent P (resumeSubmit P k stage ok w).
Proof.
  intros H Hk. unfold consistent in *.
  destruct (classification w) as [slots|] eqn:Ecls.
  - destruct H as [_ [Hsubs _]]. rewrite Hsubs in Hk. now destruct k.
  - destruct H as [Hturns [Hload Hstages]].
    pose proof (Forall_nth_error _ Hstages Hk) as Hstage.
    destruct ok, stage as [c|c]; simpl in *; rewrite Ecls.
    + destruct Hstage as [-> Hin]. split; [|split].
      * apply turns_snoc; [assumption | now constructor].
      * assumption.
      * apply Forall_setNth; [|reflexivity].
        eapply Forall_impl; [|eassumption]. intros s. apply stageOk_later.
    + subst c. split; [|split].
      * apply turns_snoc; [assumption | constructor].
      * assumption.
      * apply Forall_dropNth.
        eapply Forall_impl; [|eassumption]. intros s. apply stageOk_later.
    + split; [|split]; [assumption | assumption | now apply Forall_dropNth].
    + split; [|split]; [assumption | assumption | now apply Forall_dropNth].
Qed.

Section Reachable.

Variable Date_parse : string -> option Z.
Variable P : Props.

Lemma consistent_resumeClassification (now : Z)
    (slots : list (option (option IAPICheckSuite))) (w : World) :
  state w = initialState -> submissions w = [] ->
  Forall (quietEvent P) (log w) ->
  consistent P (resumeClassification Date_parse P now slots w).
Proof.
  intros Hinit Hsubs Hquiet. unfold resumeClassification, consistent.
  destruct (joined slots) as [suites|]; simpl.
  - split; [|split].
    + apply turns_snoc; [now apply quiet_Turns | constructor].
    + destruct (dismissed w); [now rewrite Hinit | discriminate].
    + rewrite Hsubs. constructor.
  - auto.
Qed.

Lemma consistent_construct (now : Z) :
  consistent P (construct Date_parse P now).
Proof.
  unfold construct. apply consistent_resumeClassification; simpl;
    try reflexivity.
  apply Forall_forall. intros e He. apply in_map_iff in He.
  destruct He as [i [<- _]]. right. now exists i.
Qed.

Lemma consistent_step (w : World) (i : Input) :
  consistent P w -> consistent P (step Date_parse P w i).
Proof.
  intros H. destruct i as [| |n o now|k ok]; simpl.
  - now apply consistent_confirm.
  - now apply consistent_cancel.
  - destruct (classification w) as [slots|] eqn:Ecls; [|assumption].
    unfold consistent in H. rewrite Ecls in H.
    destruct H as [Hinit [Hsubs Hquiet]].
    destruct (settle slots n o) as [slots'|].
    + now apply consistent_resumeClassification.
    + unfold consistent; simpl. rewrite Hinit, Hsubs. split; [|split].
      * now apply quiet_Turns.
      * reflexivity.
      * constructor.
  - destruct (nth_error (submissions w) k) as [stage|] eqn:E; [|assumption].
    now apply consistent_resumeSubmit.
Qed.

Lemma consistent_run (inputs : list Input) (w : World) :
  consistent P w -> consistent P (run Date_parse P w inputs).
Proof.
  revert w. induction inputs as [|i inputs IH]; simpl; intros w H;
    [assumption|].
  apply IH. now apply consistent_step.
Qed.

Lemma consistent_reachable (now : Z) (inputs : list Input) :
  consistent P (run Date_parse P (construct Date_parse P now) inputs).
Proof. apply consistent_run, consistent_construct. Qed.

End Reachable.

(** ** Reading the log *)

Lemma nth_error_app_cases (A : Type) (l t : list A) (n : nat) (x : A) :
  nth_error (l ++ t) n = Some x ->
  nth_error l n = Some x \/
  exists j, n = (List.length l + j)%nat /\ nth_error t j = Some x.
Proof.
  intros H. destruct (Nat.lt_ge_cases n (List.length l)) as [Hlt | Hge].
  - left. now rewrite nth_error_app1 in H.
  - right. exists (n - List.length l)%nat. split; [lia|].
    now rewrite nth_error_app2 in H.
Qed.

Lemma nth_error_app_Some (A : Type) (l t : list A) (n : nat) (x : A) :
  nth_error l n = Some x -> nth_error (l ++ t) n = Some x.
Proof.
  intros H. rewrite nth_error_app1; [assumption|].
  apply nth_error_Some. congruence.
Qed.

Lemma nth_error_app_at (A : Type) (l t : list A) (j : nat) :
  nth_error (l ++ t) (List.length l + j) = nth_error t j.
Proof.
  rewrite nth_error_app2 by lia. f_equal. lia.
Qed.

Ltac in_block H j :=
  destruct j as [|[|[|j]]]; simpl in H; try discriminate H;
  try (destruct j; discriminate H).

Section Log.

Variable P : Props.
Variable R : list IRefCheck.

Lemma Turns_rerequest (events : list Event) :
  Turns P R events ->
  forall n repo runs failed,
    nth_error events n = Some (EvCall (rerequestCheckSuites repo runs failed)) ->
    repo = repository P /\ runs = R /\ failed = failedOnly P /\ R <> [].
Proof.
  induction 1 as [|before block Hb IH Ht]; intros n repo runs failed Hn.
  - destruct n; discriminate.
  - apply nth_error_app_cases in Hn. destruct Hn as [Hn | [j [-> Hj]]].
    + eapply IH; eassumption.
    + destruct Ht; in_block Hj j. injection Hj as <- <- <-. auto.
Qed.

Lemma Turns_refresh (events : list Event) :
  Turns P R events ->
  forall n repo ref runs,
    nth_error events n =
      Some (EvCall (manualRefreshSubscription repo ref runs)) ->
    repo = repository P /\ ref = prRef P /\ runs = R /\
    exists m k,
      n = S m /\
      nth_error events m =
        Some (EvResumed (rerequestCheckSuites (repository P) R (failedOnly P)))
      /\ (k < m)%nat /\
      nth_error events k =
        Some (EvCall (rerequestCheckSuites (repository P) R (failedOnly P))).
Proof.
  induction 1 as [|before block Hb IH Ht]; intros n repo ref runs Hn.
  - destruct n; discriminate.
  - apply nth_error_app_cases in Hn. destruct Hn as [Hn | [j [-> Hj]]].
    + destruct (IH _ _ _ _ Hn) as [H1 [H2 [H3 [m [k [H4 [H5 [H6 H7]]]]]]]].
      repeat (split; [assumption|]). exists m, k.
      repeat split; auto using nth_error_app_Some.
    + destruct Ht as [i| |patch|HR|Hin|]; in_block Hj j.
      injection Hj as <- <- <-. repeat (split; [reflexivity|]).
      destruct (In_nth_error _ _ Hin) as [k Hk].
      exists (List.length before + 0)%nat, k. split; [lia|]. split; [|split].
      * now rewrite nth_error_app_at.
      * assert (k < List.length before)%nat; [|lia].
        apply nth_error_Some. congruence.
      * now apply nth_error_app_Some.
Qed.

Lemma Turns_record (events : list Event) :
  Turns P R events ->
  forall n,
    nth_error events n = Some (EvCall recordRerunChecks) ->
    nth_error events (S n) = Some (EvCall onDismissed) /\
    exists m,
      n = S m /\
      nth_error events m =
        Some (EvResumed
                (manualRefreshSubscription (repository P) (prRef P) R)).
Proof.
  induction 1 as [|before block Hb IH Ht]; intros n Hn.
  - destruct n; discriminate.
  - apply nth_error_app_cases in Hn. destruct Hn as [Hn | [j [-> Hj]]].
    + destruct (IH _ Hn) as [H1 [m [H2 H3]]].
      split; [now apply nth_error_app_Some|]. exists m.
      split; [assumption | now apply nth_error_app_Some].
    + destruct Ht as [i| |patch|HR|Hin|]; in_block Hj j. split.
      * replace (S (List.length before + 1))
          with (List.length before + 2)%nat by lia.
        now rewrite nth_error_app_at.
      * exists (List.length before + 0)%nat. split; [lia|].
        now rewrite nth_error_app_at.
Qed.

End Log.

(** ** Submission *)

Lemma consistent_Turns (P : Props) (w : World) :
  consistent P w -> Turns P (rerunnable (state w)) (log w).
Proof.
  unfold consistent. destruct (classification w).
  - intros [_ [_ H]]. now apply quiet_Turns.
  - now intros [H _].
Qed.

Lemma consistent_loading (P : Props) (w : World) :
  consistent P w ->
  loadingCheckSuites (state w) = true -> rerunnable (state w) = [].
Proof.
  unfold consistent. destruct (classification w).
  - intros [H _] _. now rewrite H.
  - now intros [_ [H _]].
Qed.

Lemma confirm_enabled (P : Props) (w : World) :
  dismissed w = false -> rerunnable (state w) <> [] ->
  confirm P w = onSubmit P w.
Proof.
  intros Hd HR. unfold confirm. rewrite Hd.
  destruct (okButtonDisabled (state w)) eqn:E; [|reflexivity].
  apply okButtonDisabled_spec in E. contradiction.
Qed.

Lemma confirm_disabled (P : Props) (w : World) :
  rerunnable (state w) = [] -> confirm P w = w.
Proof.
  intros HR. unfold confirm. destruct (dismissed w); [reflexivity|].
  apply okButtonDisabled_spec in HR. now rewrite HR.
Qed.

Section Submission.

Variable Date_parse : string -> option Z.
Variable P : Props.

(** C6.  The confirm action, where it is enabled, sets [loadingRerun] and
    calls [rerequestCheckSuites] with the repository, the current
    [rerunnable] and [failedOnly].  When that call resolves,
    [manualRefreshSubscription] is called with the repository, the
    reference of the pull request and the same [rerunnable]; when the
    refresh resolves, [recordRerunChecks] is called and, with nothing
    awaited in between, [onDismissed].  If the submission rejects, nothing
    more is called.  In the log of every instance, whatever the event loop
    delivers, a refresh call comes right after the resumption from a
    submission call made earlier with the same runs, and the telemetry call
    is followed at once by the dismissal. *)
Theorem submission_then_refresh (now : Z) (inputs : list Input) :
  let w := run Date_parse P (construct Date_parse P now) inputs in
  let submit := fun runs =>
    rerequestCheckSuites (repository P) runs (failedOnly P) in
  let refresh := fun runs =>
    manualRefreshSubscription (repository P) (prRef P) runs in
  (forall w0,
     dismissed w0 = false -> rerunnable (state w0) <> [] ->
     submissions w0 = [] ->
     let runs := rerunnable (state w0) in
     log (run Date_parse P w0 [UserConfirm]) =
       log w0 ++ [EvSetState submitting; EvCall (submit runs)] /\
     log (run Date_parse P w0 [UserConfirm; CallSettled 0 true]) =
       log w0 ++ [EvSetState submitting; EvCall (submit runs);
                  EvResumed (submit runs); EvCall (refresh runs)] /\
     log (run Date_parse P w0
            [UserConfirm; CallSettled 0 true; CallSettled 0 true]) =
       log w0 ++ [EvSetState submitting; EvCall (submit runs);
                  EvResumed (submit runs); EvCall (refresh runs);
                  EvResumed (refresh runs); EvCall recordRerunChecks;
                  EvCall onDismissed] /\
     log (run Date_parse P w0 [UserConfirm; CallSettled 0 false]) =
       log w0 ++ [EvSetState submitting; EvCall (submit runs)] /\
     submissions (run Date_parse P w0 [UserConfirm; CallSettled 0 false]) = [])
  /\
  (forall n repo runs failed,
     nth_error (log w) n = Some (EvCall (rerequestCheckSuites repo runs failed)) ->
     repo = repository P /\ runs = rerunnable (state w) /\
     failed = failedOnly P) /\
  (forall n repo ref runs,
     nth_error (log w) n =
       Some (EvCall (manualRefreshSubscription repo ref runs)) ->
     repo = repository P /\ ref = prRef P /\ runs = rerunnable (state w) /\
     exists m k,
       n = S m /\ nth_error (log w) m = Some (EvResumed (submit runs)) /\
       (k < m)%nat /\ nth_error (log w) k = Some (EvCall (submit runs))) /\
  (forall n,
     nth_error (log w) n = Some (EvCall recordRerunChecks) ->
     nth_error (log w) (S n) = Some (EvCall onDismissed) /\
     exists m,
       n = S m /\
       nth_error (log w) m = Some (EvResumed (refresh (rerunnable (state w))))).
Proof.
  intros w submit refresh.
  pose proof (@consistent_Turns _ _
                (consistent_reachable Date_parse P now inputs)) as Hturns.
  fold w in Hturns.
  split; [|split; [|split]].
  - intros w0 Hd HR Hsubs runs. unfold run; simpl.
    rewrite (confirm_enabled P w0 Hd HR). unfold onSubmit; simpl.
    rewrite Hsubs; simpl. rewrite <- !app_assoc. simpl. auto.
  - intros n repo runs failed Hn.
    destruct (@Turns_rerequest _ _ _ Hturns _ _ _ _ Hn) as [H1 [H2 [H3 _]]]. auto.
  - intros n repo ref runs Hn.
    destruct (@Turns_refresh _ _ _ Hturns _ _ _ _ Hn) as [H1 [H2 [H3 H4]]].
    subst runs. auto.
  - intros n Hn. exact (@Turns_record _ _ _ Hturns _ Hn).
Qed.

(** C7.  The confirm action does nothing on an instance whose [rerunnable]
    is empty.  While [loadingCheckSuites] is set, [rerunnable] is empty, so
    the confirm action does nothing while classification is loading.
    Whatever the event loop delivers, every submission in the log was made
    with the instance's [rerunnable], which was not empty. *)
Theorem confirm_needs_a_rerunnable_run (now : Z) (inputs : list Input) :
  let w := run Date_parse P (construct Date_parse P now) inputs in
  (forall w0, rerunnable (state w0) = [] ->
              step Date_parse P w0 UserConfirm = w0) /\
  (loadingCheckSuites (state w) = true ->
   rerunnable (state w) = [] /\ step Date_parse P w UserConfirm = w) /\
  (forall n repo runs failed,
     nth_error (log w) n = Some (EvCall (rerequestCheckSuites repo runs failed)) ->
     runs = rerunnable (state w) /\ runs <> []).
Proof.
  intros w.
  pose proof (consistent_reachable Date_parse P now inputs) as Hc.
  fold w in Hc.
  split; [|split].
  - intros w0 HR. simpl. now apply confirm_disabled.
  - intros Hload. pose proof (@consistent_loading _ _ Hc Hload) as HR.
    split; [assumption | simpl; now apply confirm_disabled].
  - intros n repo runs failed Hn.
    destruct (@Turns_rerequest _ _ _ (@consistent_Turns _ _ Hc) _ _ _ _ Hn) as [_ [H2 [_ H4]]].
    subst runs. auto.
Qed.


End Submission.

(** * The statements on the sample data *)

Module OnSample.

Import Sample.

Lemma eligible_suite_ids_witness :
  isRerequestable parse now suiteThirtyDays = false /\
  recentEnough parse now suiteAlmostThirtyDays = true /\
  (In 11 (rerequestableCheckSuiteIds parse now
            [Some suiteA; None; Some suiteThirtyDays]) <->
   isRerequestable parse now suiteA = true).
Proof.
  destruct (eligible_suite_ids parse now)
    as [_ [_ [_ [_ [Hone [Hold Hyoung]]]]]].
  split; [apply Hold; reflexivity|].
  split; [apply Hyoung; reflexivity|].
  apply (Hone [Some suiteA; None; Some suiteThirtyDays] suiteA).
  - simpl. auto.
  - intros cs' [H | [H | [H | []]]] Hid.
    + now injection H.
    + discriminate H.
    + injection H as <-. discriminate Hid.
Defined.

(** C2 as stated fails: with [failedOnly] set, a run that passed and whose
    suite is eligible is in neither list. *)
Lemma passed_run_of_eligible_suite_in_neither_list :
  determineRerunnability parse true [failedA; passedA] now
    [(0%nat, Fulfilled (Some suiteA))] =
    Some {| part_rerunnable := [failedA]; part_nonRerunnable := [failedA] |} /\
  In passedA [failedA; passedA] /\
  checkSuiteId passedA = Some 11 /\
  ~ In passedA [failedA].
Proof.
  split; [reflexivity|]. split; [simpl; auto|]. split; [reflexivity|].
  intros [H | []]. discriminate H.
Qed.

Lemma each_check_run_classified_witness :
  let p := classify parse true [failedA; passedA; orphan] now [Some suiteA] in
  (In orphan (part_nonRerunnable p) /\ ~ In orphan (part_rerunnable p)) /\
  (~ In passedA (part_rerunnable p) /\ ~ In passedA (part_nonRerunnable p)).
Proof.
  intros p. split.
  - assert (In orphan [failedA; passedA; orphan]) as Hin by (simpl; auto).
    destruct (each_check_run_classified parse true [failedA; passedA; orphan]
                now [Some suiteA] orphan Hin) as [Hnull _].
    apply Hnull. reflexivity.
  - assert (In passedA [failedA; passedA; orphan]) as Hin by (simpl; auto).
    destruct (each_check_run_classified parse true [failedA; passedA; orphan]
                now [Some suiteA] passedA Hin) as [_ [_ [_ Hpassed]]].
    apply Hpassed.
    + reflexivity.
    + discriminate.
    + exists 11. split; [reflexivity | simpl; auto].
Defined.

Lemma nonRerunnable_of_all_check_runs_witness :
  In orphan
    (part_nonRerunnable
       (classify parse true [failedA; passedA; orphan] now [Some suiteA])).
Proof.
  destruct (nonRerunnable_of_all_check_runs parse true
              [failedA; passedA; orphan] now [Some suiteA]) as [_ Hout].
  apply Hout. split; [simpl; auto|]. split; [|reflexivity].
  intros [H | []]. discriminate H.
Defined.

Lemma rerunnable_of_working_subset_witness :
  List.length
    (part_rerunnable
       (classify parse true fiveRuns now [Some suiteA; Some suiteB])) = 3%nat.
Proof.
  destruct (rerunnable_of_working_subset parse true fiveRuns now
              [Some suiteA; Some suiteB]) as [_ [_ Hfailed]].
  destruct Hfailed as [_ Hthree].
  - reflexivity.
  - intros cr [<- | [<- | [<- | [<- | [<- | []]]]]] Hc;
      try discriminate Hc.
    + exists 11. split; [reflexivity | simpl; auto].
    + exists 22. split; [reflexivity | simpl; auto].
    + exists 11. split; [reflexivity | simpl; auto].
  - apply Hthree; reflexivity.
Defined.

(** C5 as stated fails: the fetch of suite 11 rejects, the fetch of suite 22
    resolves to an eligible suite, and the pass never sets the state: the
    dialog stays loading and the run of suite 22 is not in [rerunnable]. *)
Lemma rejected_fetch_aborts_classification :
  let P := dialog [failedA; failedB] false in
  let schedule := [(0%nat, Rejected); (1%nat, Fulfilled (Some suiteB))] in
  let w := run parse P (construct parse P now) (deliver now schedule) in
  fetchedIds (checkSuiteIds (checkRunsToConsider false [failedA; failedB])) =
    [11; 22] /\
  isRerequestable parse now suiteB = true /\
  determineRerunnability parse false [failedA; failedB] now schedule = None /\
  loadingCheckSuites (state w) = true /\
  rerunnable (state w) = [] /\
  ~ In failedB (rerunnable (state w)).
Proof.
  repeat (split; [reflexivity|]). intros [].
Qed.

Lemma fetch_without_result_is_ineligible_witness :
  let P := dialog [failedA; failedB] false in
  let schedule :=
    [(1%nat, Fulfilled (Some suiteB)); (0%nat, Fulfilled None)] in
  exists suites,
    determineRerunnability parse false [failedA; failedB] now schedule =
      Some (classify parse false [failedA; failedB] now suites) /\
    In failedB
      (part_rerunnable (classify parse false [failedA; failedB] now suites)).
Proof.
  intros P schedule.
  assert (NoDup (map fst schedule)) as Hnd.
  { repeat constructor; simpl; intuition discriminate. }
  destruct (fetch_without_result_is_ineligible parse P now schedule Hnd)
    as [Hall _].
  destruct Hall as [suites [Hdet [_ [_ [_ [_ Hruns]]]]]].
  - intros [|[|k]] Hk.
    + exists None. simpl. auto.
    + exists (Some suiteB). simpl. auto.
    + simpl in Hk. lia.
  - exists suites. split; [exact Hdet|].
    apply (Hruns failedB 1%nat suiteB).
    + simpl. auto.
    + simpl. lia.
    + simpl. auto.
    + reflexivity.
    + reflexivity.
Defined.

Lemma submission_then_refresh_witness :
  let P := dialog [failedA] false in
  let w := run parse P (construct parse P now)
             [FetchSettled 0 (Fulfilled (Some suiteA)) now; UserConfirm;
              CallSettled 0 true; CallSettled 0 true] in
  exists m k,
    5%nat = S m /\
    nth_error (log w) m =
      Some (EvResumed (rerequestCheckSuites (repository P) [failedA]
                         (failedOnly P))) /\
    (k < m)%nat /\
    nth_error (log w) k =
      Some (EvCall (rerequestCheckSuites (repository P) [failedA]
                      (failedOnly P))).
Proof.
  intros P w.
  destruct (submission_then_refresh parse P now
              [FetchSettled 0 (Fulfilled (Some suiteA)) now; UserConfirm;
               CallSettled 0 true; CallSettled 0 true])
    as [_ [_ [Hrefresh _]]].
  destruct (Hrefresh 5%nat (repository P) (prRef P) [failedA])
    as [_ [_ [_ H]]]; [reflexivity | exact H].
Defined.

Lemma confirm_needs_a_rerunnable_run_witness :
  let P := dialog [failedA] false in
  let w := run parse P (construct parse P now) [UserConfirm; UserConfirm] in
  rerunnable (state w) = [] /\ step parse P w UserConfirm = w.
Proof.
  intros P w.
  destruct (confirm_needs_a_rerunnable_run parse P now
              [UserConfirm; UserConfirm]) as [_ [Hloading _]].
  apply Hloading. reflexivity.
Defined.



Lemma settle_order_is_irrelevant_witness :
  determineRerunnability parse true fiveRuns now
    [(1%nat, Fulfilled (Some suiteB)); (0%nat, Fulfilled (Some suiteA))] =
  determineRerunnability parse true fiveRuns now
    [(0%nat, Fulfilled (Some suiteA)); (1%nat, Fulfilled (Some suiteB))].
Proof.
  destruct (settle_order_is_irrelevant parse (dialog fiveRuns true) now)
    as [_ [_ [_ [Horder _]]]].
  apply Horder.
  - repeat constructor; simpl; intuition discriminate.
  - apply perm_swap.
Defined.

Lemma nonRerunnable_is_complement_witness :
  let p := classify parse false fiveRuns now [Some suiteA; None] in
  In failedB (part_nonRerunnable p) /\ ~ In failedB (part_rerunnable p).
Proof.
  intros p.
  destruct (nonRerunnable_is_complement parse fiveRuns now [Some suiteA; None])
    as [_ [Hnon _]].
  assert (In failedB (part_nonRerunnable p)) as H by (simpl; auto 6).
  split; [exact H | exact (proj2 (proj1 (Hnon failedB) H))].
Defined.

End OnSample.

(** * The rest of the dialog: what it shows, and the instance over time *)

Lemma filter_everything (A : Type) (f : A -> bool) (l : list A) :
  (forall x, In x l -> f x = true) -> filter f l = l.
Proof.
  induction l as [|x l IH]; simpl; intros H; [reflexivity|].
  rewrite (H x (or_introl eq_refl)). f_equal. apply IH. auto.
Qed.

Lemma filter_nothing (A : Type) (f : A -> bool) (l : list A) :
  filter f l = [] <-> forall x, In x l -> f x = false.
Proof.
  induction l as [|x l IH]; simpl; [tauto|].
  destruct (f x) eqn:E; split.
  - discriminate.
  - intros H. rewrite (H x (or_introl eq_refl)) in E. discriminate.
  - intros H y [<- | Hy]; [assumption | now apply IH].
  - intros H. apply IH. auto.
Qed.

Lemma filter_length_mono (A : Type) (f g : A -> bool) (l : list A) :
  (forall x, In x l -> f x = true -> g x = true) ->
  (List.length (filter f l) <= List.length (filter g l))%nat.
Proof.
  induction l as [|x l IH]; simpl; intros H; [lia|].
  assert (List.length (filter f l) <= List.length (filter g l))%nat as Hle
    by (apply IH; auto).
  destruct (f x) eqn:Ef.
  - rewrite (H x (or_introl eq_refl) Ef). simpl. lia.
  - destruct (g x); simpl; lia.
Qed.

Lemma length_zero_eqb (A : Type) (l : list A) :
  (List.length l =? 0)%nat = true <-> l = [].
Proof. rewrite Nat.eqb_eq. apply length_zero_iff_nil. Qed.

Lemma fold_Set_add_length (values s : list (option Z)) :
  (List.length (fold_left Set_add values s)
   <= List.length s + List.length values)%nat.
Proof.
  revert s. induction values as [|v values IH]; simpl; intros s; [lia|].
  specialize (IH (Set_add s v)). unfold Set_add in *.
  destruct (Set_has s v); [lia|]. rewrite length_app in IH. simpl in IH. lia.
Qed.

Lemma fetchedIds_length (ids : list (option Z)) :
  (List.length (fetchedIds ids) <= List.length ids)%nat.
Proof. induction ids as [|[i|] ids IH]; simpl; lia. Qed.

Lemma numberText_not_no (n : nat) (rest more rest' : string) :
  ((numberText n ++ rest) ++ more)%string <>
  String (Ascii.ascii_of_nat 110) rest'.
Proof.
  unfold numberText, DecimalString.NilZero.string_of_uint.
  destruct (Nat.to_uint n); simpl; discriminate.
Qed.

Lemma step_keeps_lists (Date_parse : string -> option Z) (P : Props)
    (w : World) (i : Input) :
  classification w = None ->
  classification (step Date_parse P w i) = None /\
  rerunnable (state (step Date_parse P w i)) = rerunnable (state w) /\
  nonRerunnable (state (step Date_parse P w i)) = nonRerunnable (state w) /\
  loadingCheckSuites (state (step Date_parse P w i)) =
    loadingCheckSuites (state w).
Proof.
  intros Hcls. destruct i as [| |n o now|k ok]; simpl.
  - unfold confirm. destruct (dismissed w); [auto|].
    destruct (okButtonDisabled (state w)); simpl; auto.
  - unfold cancel. destruct (dismissed w); simpl; auto.
  - rewrite Hcls. auto.
  - destruct (nth_error (submissions w) k) as [stage|]; [|auto].
    destruct ok, stage; simpl; auto.
Qed.

Lemma run_keeps_lists (Date_parse : string -> option Z) (P : Props)
    (inputs : list Input) :
  forall w,
    classification w = None ->
    rerunnable (state (run Date_parse P w inputs)) = rerunnable (state w) /\
    nonRerunnable (state (run Date_parse P w inputs)) =
      nonRerunnable (state w) /\
    loadingCheckSuites (state (run Date_parse P w inputs)) =
      loadingCheckSuites (state w).
Proof.
  induction inputs as [|i inputs IH]; intros w Hcls; [simpl; auto|].
  destruct (step_keeps_lists Date_parse P w i Hcls) as [H0 [H1 [H2 H3]]].
  destruct (IH _ H0) as [H4 [H5 H6]].
  rewrite !run_cons, H4, H5, H6. auto.
Qed.

Lemma consistent_classified (P : Props) (w : World) :
  consistent P w ->
  loadingCheckSuites (state w) = false -> classification w = None.
Proof.
  unfold consistent. destruct (classification w); [|reflexivity].
  intros [H _] Hl. rewrite H in Hl. discriminate.
Qed.

Lemma step_keeps_loadingRerun (Date_parse : string -> option Z) (P : Props)
    (w : World) (i : Input) :
  loadingRerun (state w) = true ->
  loadingRerun (state (step Date_parse P w i)) = true.
Proof.
  intros H. destruct i as [| |n o now|k ok]; simpl.
  - unfold confirm. destruct (dismissed w); [assumption|].
    destruct (okButtonDisabled (state w)); [assumption | reflexivity].
  - unfold cancel. now destruct (dismissed w).
  - destruct (classification w) as [slots|]; [|assumption].
    destruct (settle slots n o) as [slots'|]; [|assumption].
    unfold resumeClassification.
    destruct (joined slots'); [|assumption]. simpl.
    now destruct (dismissed w).
  - destruct (nth_error (submissions w) k) as [stage|]; [|assumption].
    now destruct ok, stage.
Qed.

Lemma run_keeps_loadingRerun (Date_parse : string -> option Z) (P : Props)
    (inputs : list Input) :
  forall w,
    loadingRerun (state w) = true ->
    loadingRerun (state (run Date_parse P w inputs)) = true.
Proof.
  induction inputs as [|i inputs IH]; intros w H; [assumption|].
  rewrite run_cons. apply IH. now apply step_keeps_loadingRerun.
Qed.

Section Shown.

Variable Date_parse : string -> option Z.

(** X1.  When no run of the working subset has a suite id (in particular
    when there are no check runs), the constructor issues no fetch and the
    pass completes in the constructor's turn: the dialog is not loading,
    [rerunnable] is empty and [nonRerunnable] is the whole list of check
    runs.  When some run of the working subset has a suite id, the
    constructor leaves the initial state, with the pass suspended on one
    slot for each fetch. *)
Theorem constructor_without_suite_ids (P : Props) (now : Z) :
  let considered := checkRunsToConsider (failedOnly P) (checkRuns P) in
  let promises := fetchedIds (checkSuiteIds considered) in
  ((forall cr, In cr considered -> checkSuiteId cr = None) ->
   construct Date_parse P now =
     {| state := {| loadingCheckSuites := false;
                    loadingRerun := false;
                    rerunnable := [];
                    nonRerunnable := checkRuns P |};
        dismissed := false;
        classification := None;
        submissions := [];
        log := [EvSetState (classifiedPatch Date_parse P now [])] |}) /\
  ((exists cr, In cr considered /\ checkSuiteId cr <> None) ->
   promises <> [] /\
   state (construct Date_parse P now) = initialState /\
   classification (construct Date_parse P now) =
     Some (repeat None (List.length promises))).
Proof.
  intros considered promises.
  destruct (fetches_spec considered) as [_ Hin]. fold promises in Hin.
  split.
  - intros Hnull.
    assert (promises = []) as Hnone.
    { destruct promises as [|i rest]; [reflexivity|].
      destruct (proj1 (Hin i) (or_introl eq_refl)) as [cr [Hcr Hi]].
      rewrite (Hnull cr Hcr) in Hi. discriminate. }
    unfold construct. fold considered. fold promises. rewrite Hnone.
    unfold resumeClassification; simpl. f_equal.
    unfold setState, classify; simpl. f_equal.
    + fold considered. apply filter_nothing. intros cr Hcr.
      unfold canRerun. now rewrite (Hnull cr Hcr).
    + apply filter_everything. intros cr _. unfold cannotRerun.
      now destruct (checkSuiteId cr).
  - intros [cr [Hcr Hsome]].
    assert (promises <> []) as Hne.
    { destruct (checkSuiteId cr) as [i|] eqn:E; [|congruence].
      assert (In i promises) as Hi by (apply Hin; eauto).
      intros Hnil. rewrite Hnil in Hi. destruct Hi. }
    split; [assumption|].
    unfold construct. fold considered. fold promises. rewrite map_const.
    unfold resumeClassification.
    destruct promises as [|i rest]; [congruence|]. simpl. auto.
Qed.

(** X2.  A suite whose creation time reads as [t] passes the age clause
    exactly while the clock is before [t] plus 30 days; so eligibility only
    expires: a suite eligible now was eligible at every earlier reading of
    the clock, and every id in the eligible-suite-id set now was in it
    then. *)
Theorem eligibility_only_expires (now : Z) (cs : IAPICheckSuite) :
  (forall t, Date_parse (created_at cs) = Some t ->
             (recentEnough Date_parse now cs = true <->
              now < t + 2592000000)) /\
  (forall earlier,
     earlier <= now ->
     isRerequestable Date_parse now cs = true ->
     isRerequestable Date_parse earlier cs = true) /\
  (forall earlier suites i,
     earlier <= now ->
     In i (rerequestableCheckSuiteIds Date_parse now suites) ->
     In i (rerequestableCheckSuiteIds Date_parse earlier suites)).
Proof.
  assert (Hmono : forall earlier c, earlier <= now ->
            isRerequestable Date_parse now c = true ->
            isRerequestable Date_parse earlier c = true).
  { intros earlier c Hle. rewrite !isRerequestable_spec.
    intros [H1 [[t [Ht Hgt]] H3]]. split; [assumption|].
    split; [|assumption]. exists t. split; [assumption | lia]. }
  split; [|split].
  - intros t Ht. rewrite recentEnough_spec. split.
    + intros [t' [Ht' Hgt]]. rewrite Ht in Ht'. injection Ht' as <-. lia.
    + intros Hlt. exists t. split; [assumption | lia].
  - intros earlier. apply Hmono.
  - intros earlier suites i Hle. rewrite !In_rerequestableCheckSuiteIds.
    intros [c [H1 [H2 H3]]]. exists c. eauto.
Qed.

(** X3.  Re-running failed checks only never re-runs a check that
    re-running all checks would not: if every suite fetched for the failed
    runs is also among the suites fetched for all runs, each run in the
    failed-only [rerunnable] is a failed check run that is also in the
    [rerunnable] of all checks. *)
Theorem failed_only_reruns_no_more (checkRuns : list IRefCheck) (now : Z)
    (suites suites' : list (option IAPICheckSuite)) (cr : IRefCheck) :
  (forall cs, In (Some cs) suites -> In (Some cs) suites') ->
  In cr (part_rerunnable (classify Date_parse true checkRuns now suites)) ->
  conclusion cr = Some Failure /\
  In cr (part_rerunnable (classify Date_parse false checkRuns now suites')).
Proof.
  intros Hsub. rewrite !In_part_rerunnable, !In_checkRunsToConsider.
  intros [[Hin Hfailed] [i [Hi Hids]]].
  split; [now apply Hfailed|]. split; [split; [assumption | discriminate]|].
  exists i. split; [assumption|].
  apply In_rerequestableCheckSuiteIds in Hids.
  destruct Hids as [cs [H1 [H2 H3]]].
  apply In_rerequestableCheckSuiteIds. exists cs. auto.
Qed.

(** X10.  The dialog never issues more fetches than there are runs in the
    working subset, and each fetch is for the suite id of a check run,
    a failed one when [failedOnly] is set. *)
Theorem no_more_fetches_than_runs (failedOnly : bool)
    (checkRuns : list IRefCheck) :
  let considered := checkRunsToConsider failedOnly checkRuns in
  let promises := fetchedIds (checkSuiteIds considered) in
  (List.length promises <= List.length considered)%nat /\
  (List.length considered <= List.length checkRuns)%nat /\
  (forall i, In i promises ->
     exists cr, In cr checkRuns /\ checkSuiteId cr = Some i /\
                (failedOnly = true -> conclusion cr = Some Failure)).
Proof.
  intros considered promises. split; [|split].
  - unfold promises, checkSuiteIds, new_Set.
    pose proof (fetchedIds_length
                  (fold_left Set_add (map checkSuiteId considered) [])).
    pose proof (fold_Set_add_length (map checkSuiteId considered) []).
    rewrite length_map in *. simpl in *. lia.
  - unfold considered, checkRunsToConsider. destruct failedOnly; [|lia].
    apply List.filter_length_le.
  - intros i Hi. apply (proj2 (fetches_spec considered)) in Hi.
    destruct Hi as [cr [Hcr Hsuite]].
    apply In_checkRunsToConsider in Hcr. exists cr. tauto.
Qed.

End Shown.

Section OverTime.

Variable Date_parse : string -> option Z.
Variable P : Props.
Variable DARWIN : bool.

(** X4.  The two lists are set once: on an instance that is no longer
    loading check suites, nothing the event loop delivers afterwards
    (confirm, cancel, late settlements of fetches or of calls) changes
    [rerunnable], [nonRerunnable] or [loadingCheckSuites]. *)
Theorem lists_are_set_once (now : Z) (inputs later : list Input) :
  let w := run Date_parse P (construct Date_parse P now) inputs in
  let w' := run Date_parse P w later in
  loadingCheckSuites (state w) = false ->
  rerunnable (state w') = rerunnable (state w) /\
  nonRerunnable (state w') = nonRerunnable (state w) /\
  loadingCheckSuites (state w') = false.
Proof.
  intros w w' Hloaded.
  pose proof (consistent_reachable Date_parse P now inputs) as Hc.
  fold w in Hc.
  pose proof (@consistent_classified _ _ Hc Hloaded) as Hcls.
  destruct (run_keeps_lists Date_parse P later w Hcls) as [H1 [H2 H3]].
  fold w' in H1, H2, H3. rewrite H3. auto.
Qed.

(** X5.  [onSubmit] sets [loadingRerun] and nothing ever clears it: after
    a confirm that went through, the dialog is shown as loading whatever
    happens next.  In particular, when the submission rejects, [onSubmit]
    is abandoned without calling the dismissal callback, and the dialog
    stays loading with nothing in flight. *)
Theorem submitting_is_never_cleared (w : World) (inputs : list Input) :
  dismissed w = false ->
  rerunnable (state w) <> [] ->
  let w' := run Date_parse P (step Date_parse P w UserConfirm) inputs in
  let rejected := run Date_parse P w [UserConfirm; CallSettled 0 false] in
  loadingRerun (state w') = true /\
  view_loading (render DARWIN P (state w')) = true /\
  (submissions w = [] ->
   submissions rejected = [] /\
   dismissed rejected = false /\
   view_loading (render DARWIN P (state rejected)) = true /\
   log rejected =
     log w ++ [EvSetState submitting;
               EvCall (rerequestCheckSuites (repository P)
                         (rerunnable (state w)) (failedOnly P))]).
Proof.
  intros Hd HR w' rejected.
  assert (loadingRerun (state w') = true) as Hl.
  { apply run_keeps_loadingRerun. simpl.
    now rewrite (confirm_enabled P w Hd HR). }
  split; [assumption|]. split.
  - simpl. rewrite Hl. apply orb_true_r.
  - intros Hsubs. unfold rejected, run; simpl.
    rewrite (confirm_enabled P w Hd HR). unfold onSubmit; simpl.
    rewrite Hsubs; simpl. rewrite Hd. repeat split. apply orb_true_r.
Qed.

(** X6.  Whenever the ok button is enabled, the dialog is past loading and
    shows the list of exactly the runs in [rerunnable], and a confirm
    submits exactly those runs. *)
Theorem enabled_confirm_submits_what_is_shown (now : Z)
    (inputs : list Input) :
  let w := run Date_parse P (construct Date_parse P now) inputs in
  let view := render DARWIN P (state w) in
  view_okButtonDisabled view = false ->
  rerunnable (state w) <> [] /\
  view_content view = CheckRunList (Some (rerunnable (state w))) /\
  (dismissed w = false ->
   log (step Date_parse P w UserConfirm) =
     log w ++ [EvSetState submitting;
               EvCall (rerequestCheckSuites (repository P)
                         (rerunnable (state w)) (failedOnly P))]).
Proof.
  intros w view Henabled. simpl in Henabled.
  pose proof (consistent_reachable Date_parse P now inputs) as Hc.
  fold w in Hc.
  assert (rerunnable (state w) <> []) as HR.
  { intros Hnil. apply okButtonDisabled_spec in Hnil. congruence. }
  split; [assumption|]. split.
  - unfold view; simpl. unfold renderRerunnableJobsList.
    destruct (loadingCheckSuites (state w)) eqn:El.
    + destruct HR. now apply (@consistent_loading P w).
    + destruct (rerunnable (state w)); [congruence | reflexivity].
  - intros Hd. simpl. now rewrite (confirm_enabled P w Hd HR).
Qed.

(** X8.  While check suites are loading, the dialog shows the "Please wait"
    body and no warning row, is marked loading, has its ok button disabled,
    and ignores a confirm. *)
Theorem loading_view (now : Z) (inputs : list Input) :
  let w := run Date_parse P (construct Date_parse P now) inputs in
  let view := render DARWIN P (state w) in
  loadingCheckSuites (state w) = true ->
  view_loading view = true /\
  view_content view = PleaseWait /\
  view_info view = None /\
  view_okButtonDisabled view = true /\
  step Date_parse P w UserConfirm = w.
Proof.
  intros w view Hl.
  pose proof (consistent_reachable Date_parse P now inputs) as Hc.
  fold w in Hc.
  pose proof (@consistent_loading _ _ Hc Hl) as HR.
  unfold view; simpl.
  unfold renderRerunnableJobsList, renderRerunInfo. rewrite Hl. simpl.
  repeat (split; [reflexivity|]).
  split; [now apply okButtonDisabled_spec | now apply confirm_disabled].
Qed.

(** X7.  After a pass over all check runs ([failedOnly] false): the warning
    row is absent exactly when every check run is in [rerunnable], and it
    reads "There are no checks that can be re-run" exactly when there are
    check runs and [rerunnable] is empty. *)
Theorem warning_after_pass_over_all (now : Z)
    (suites : list (option IAPICheckSuite)) (s0 : State) :
  failedOnly P = false ->
  let s := setState (classifiedPatch Date_parse P now suites) s0 in
  (renderRerunInfo s = None <->
   forall cr, In cr (checkRuns P) -> In cr (rerunnable s)) /\
  (renderRerunInfo s =
     Some ("There are no checks that can be re-run" ++ explanation)%string <->
   checkRuns P <> [] /\ rerunnable s = []).
Proof.
  intros Hall s.
  set (ids := rerequestableCheckSuiteIds Date_parse now suites).
  assert (HR : rerunnable s = filter (canRerun ids) (checkRuns P)).
  { unfold s, classifiedPatch, classify, checkRunsToConsider; simpl.
    now rewrite Hall. }
  assert (HN : nonRerunnable s =
               filter (fun cr => negb (canRerun ids cr)) (checkRuns P)).
  { unfold s, classifiedPatch, classify; simpl. rewrite Hall.
    apply filter_ext. intros cr. apply cannotRerun_all. }
  assert (Hl : loadingCheckSuites s = false) by reflexivity.
  clearbody s.
  assert (Hnone : nonRerunnable s = [] <->
                  forall cr, In cr (checkRuns P) -> In cr (rerunnable s)).
  { rewrite HN, HR, filter_nothing. split; intros H cr Hcr.
    - apply filter_In. split; [assumption|].
      specialize (H cr Hcr). now apply negb_false_iff in H.
    - apply negb_false_iff. specialize (H cr Hcr).
      now apply filter_In in H. }
  split.
  - rewrite <- Hnone. unfold renderRerunInfo. rewrite Hl. simpl.
    destruct (List.length (nonRerunnable s) =? 0)%nat eqn:E.
    + apply length_zero_eqb in E. split; auto.
    + split; [discriminate|]. intros H. apply length_zero_eqb in H. congruence.
  - unfold renderRerunInfo. rewrite Hl. simpl.
    destruct (List.length (nonRerunnable s) =? 0)%nat eqn:E.
    + apply length_zero_eqb in E. split; [discriminate|].
      intros [Hne Hempty]. exfalso.
      destruct (checkRuns P) as [|cr rest] eqn:Eruns; [congruence|].
      assert (In cr (rerunnable s)) as Hin.
      { apply (proj1 Hnone E). now left. }
      rewrite Hempty in Hin. destruct Hin.
    + assert (checkRuns P <> []) as Hne.
      { intros Hnil. rewrite HN, Hnil in E. discriminate. }
      destruct (List.length (rerunnable s) =? 0)%nat eqn:ER.
      * apply length_zero_eqb in ER. split; auto.
      * split.
        -- intros H. exfalso. injection H as H.
           destruct (negb (List.length (nonRerunnable s) =? 1)%nat);
             simpl in H.
           ++ injection H as H. now apply numberText_not_no in H.
           ++ discriminate H.
        -- intros [_ H]. apply length_zero_eqb in H. congruence.
Qed.

(** X9.  After a pass over the failed check runs only ([failedOnly] set),
    every failed check run is in [nonRerunnable], whether or not it is
    also in [rerunnable]: [nonRerunnable] has at least as many runs as
    there are failed check runs, and the warning row is shown as soon as
    one check run failed. *)
Theorem failed_runs_counted_in_failed_only (now : Z)
    (suites : list (option IAPICheckSuite)) (s0 : State) :
  failedOnly P = true ->
  let s := setState (classifiedPatch Date_parse P now suites) s0 in
  (forall cr, In cr (checkRuns P) -> conclusion cr = Some Failure ->
              In cr (nonRerunnable s)) /\
  (List.length (filter isFailure (checkRuns P))
   <= List.length (nonRerunnable s))%nat /\
  ((exists cr, In cr (checkRuns P) /\ conclusion cr = Some Failure) ->
   renderRerunInfo s <> None).
Proof.
  intros Hfailed s.
  set (ids := rerequestableCheckSuiteIds Date_parse now suites).
  assert (HN : nonRerunnable s = filter (cannotRerun true ids) (checkRuns P)).
  { unfold s, classifiedPatch, classify; simpl. now rewrite Hfailed. }
  assert (Hl : loadingCheckSuites s = false) by reflexivity.
  clearbody s.
  assert (Hin : forall cr, In cr (checkRuns P) ->
                  conclusion cr = Some Failure -> In cr (nonRerunnable s)).
  { intros cr Hcr Hc. rewrite HN. apply filter_In. split; [assumption|].
    apply cannotRerun_spec. auto. }
  split; [assumption|]. split.
  - rewrite HN. apply filter_length_mono. intros cr _ Hf.
    apply cannotRerun_spec. right; right. split; [reflexivity|].
    now apply isFailure_spec.
  - intros [cr [Hcr Hc]]. unfold renderRerunInfo.
    rewrite Hl. simpl.
    destruct (List.length (nonRerunnable s) =? 0)%nat eqn:E; [|discriminate].
    apply length_zero_eqb in E. specialize (Hin cr Hcr Hc).
    rewrite E in Hin. destruct Hin.
Qed.

End OverTime.

Module MoreOnSample.

Import Sample.

Lemma constructor_without_suite_ids_witness :
  state (construct parse (dialog [orphan] false) now) =
    {| loadingCheckSuites := false; loadingRerun := false;
       rerunnable := []; nonRerunnable := [orphan] |} /\
  state (construct parse (dialog [orphan; failedA] false) now) = initialState.
Proof.
  split.
  - destruct (constructor_without_suite_ids parse (dialog [orphan] false) now)
      as [Hnone _].
    rewrite Hnone; [reflexivity|].
    intros cr [<- | []]. reflexivity.
  - destruct (constructor_without_suite_ids parse
                (dialog [orphan; failedA] false) now) as [_ Hsome].
    apply Hsome. exists failedA. split; [simpl; auto | discriminate].
Defined.

Lemma eligibility_only_expires_witness :
  isRerequestable parse (now - 1) suiteAlmostThirtyDays = true /\
  (recentEnough parse now suiteThirtyDays = true <->
   now < 1704067200000 + 2592000000).
Proof.
  destruct (eligibility_only_expires parse now suiteAlmostThirtyDays)
    as [_ [Hearlier _]].
  destruct (eligibility_only_expires parse now suiteThirtyDays)
    as [Hwindow _].
  split.
  - apply Hearlier; [unfold now; lia | reflexivity].
  - apply Hwindow. reflexivity.
Defined.

Lemma failed_only_reruns_no_more_witness :
  conclusion failedA = Some Failure /\
  In failedA
    (part_rerunnable
       (classify parse false fiveRuns now [Some suiteB; Some suiteA])).
Proof.
  apply (failed_only_reruns_no_more parse fiveRuns now
           [Some suiteA] [Some suiteB; Some suiteA] failedA).
  - intros cs [H | []]. simpl. auto.
  - simpl. auto.
Defined.

Lemma no_more_fetches_than_runs_witness :
  exists cr, In cr fiveRuns /\ checkSuiteId cr = Some 22 /\
             (true = true -> conclusion cr = Some Failure).
Proof.
  destruct (no_more_fetches_than_runs true fiveRuns) as [_ [_ Hfor]].
  apply Hfor. simpl. auto.
Defined.

Lemma lists_are_set_once_witness :
  let P := dialog [failedA] false in
  let w := run parse P (construct parse P now)
             [FetchSettled 0 (Fulfilled (Some suiteA)) now] in
  let w' := run parse P w
              [UserConfirm; FetchSettled 0 (Fulfilled None) now;
               CallSettled 0 false; UserCancel] in
  rerunnable (state w') = rerunnable (state w) /\
  nonRerunnable (state w') = nonRerunnable (state w) /\
  loadingCheckSuites (state w') = false.
Proof.
  intros P w w'.
  apply (lists_are_set_once parse P now
           [FetchSettled 0 (Fulfilled (Some suiteA)) now]
           [UserConfirm; FetchSettled 0 (Fulfilled None) now;
            CallSettled 0 false; UserCancel]).
  reflexivity.
Defined.

Lemma submitting_is_never_cleared_witness :
  let P := dialog [failedA] false in
  let w := run parse P (construct parse P now)
             [FetchSettled 0 (Fulfilled (Some suiteA)) now] in
  let rejected := run parse P w [UserConfirm; CallSettled 0 false] in
  submissions rejected = [] /\
  dismissed rejected = false /\
  view_loading (render true P (state rejected)) = true.
Proof.
  intros P w rejected.
  assert (dismissed w = false) as Hd by reflexivity.
  assert (rerunnable (state w) <> []) as HR by discriminate.
  destruct (submitting_is_never_cleared parse P true w [] Hd HR)
    as [_ [_ Hrejected]].
  destruct Hrejected as [H1 [H2 [H3 _]]]; [reflexivity|]. auto.
Defined.

Lemma enabled_confirm_submits_what_is_shown_witness :
  let P := dialog [failedA; orphan] false in
  let w := run parse P (construct parse P now)
             [FetchSettled 0 (Fulfilled (Some suiteA)) now] in
  view_content (render false P (state w)) = CheckRunList (Some [failedA]).
Proof.
  intros P w.
  destruct (enabled_confirm_submits_what_is_shown parse P false now
              [FetchSettled 0 (Fulfilled (Some suiteA)) now])
    as [_ [Hshown _]]; [reflexivity|].
  exact Hshown.
Defined.

Lemma loading_view_witness :
  let P := dialog [failedA; failedB] true in
  let w := run parse P (construct parse P now)
             [FetchSettled 1 (Fulfilled (Some suiteB)) now; UserConfirm] in
  view_content (render true P (state w)) = PleaseWait /\
  view_okButtonDisabled (render true P (state w)) = true.
Proof.
  intros P w.
  destruct (loading_view parse P true now
              [FetchSettled 1 (Fulfilled (Some suiteB)) now; UserConfirm])
    as [_ [H1 [_ [H2 _]]]]; [reflexivity|].
  auto.
Defined.

Lemma warning_after_pass_over_all_witness :
  let P := dialog [failedA; passedA] false in
  renderRerunInfo
    (setState (classifiedPatch parse P now [Some suiteA]) initialState) = None.
Proof.
  intros P.
  destruct (warning_after_pass_over_all parse P now [Some suiteA] initialState)
    as [Habsent _]; [reflexivity|].
  apply Habsent. intros cr [<- | [<- | []]]; simpl; auto.
Defined.

Lemma failed_runs_counted_in_failed_only_witness :
  let P := dialog fiveRuns true in
  renderRerunInfo
    (setState (classifiedPatch parse P now [Some suiteA; Some suiteB])
       initialState) <> None.
Proof.
  intros P.
  destruct (failed_runs_counted_in_failed_only parse P now
              [Some suiteA; Some suiteB] initialState)
    as [_ [_ Hshown]]; [reflexivity|].
  apply Hshown. exists failedA. split; [simpl; auto | reflexivity].
Defined.

End MoreOnSample.
